(** * A shell-like command line tokenizer: model of [args.go] and its properties

    The Go package [args] splits a line into words, respecting quotes, the
    escape character, brackets and a few "symbol" characters.  The model
    below follows [args.go] function by function.

    Conventions.
    - A Go [rune] is a code point, modelled as [Z].
    - A Go [string] is modelled by the sequence of runes that [ReadRune]
      decodes from it ([gostring]); for valid UTF-8 this is one-to-one, and
      [string(c)], [buf.String()], [io.Copy] and [ioutil.ReadAll] then act on
      rune sequences.
    - The scanner reads from an in-memory string ([NewScannerString]), so the
      only read failure is [io.EOF]. *)

From Stdlib Require Import ZArith.
From stdpp Require Import base gmap list strings.

Local Open Scope Z_scope.

(** ** Runes and strings *)

Definition rune := Z.
Definition gostring := list rune.

(** Code points of an ASCII literal, for writing inputs readably. *)
Definition runes (s : string) : gostring :=
  map (fun a => Z.of_N (Ascii.N_of_ascii a)) (String.list_ascii_of_string s).

(** [unicode.IsSpace]: the Latin-1 spaces and the other code points with the
    Unicode White_Space property. *)
Definition IsSpace (r : rune) : bool :=
  ((9 <=? r) && (r <=? 13)) || (r =? 32) || (r =? 133) || (r =? 160)
  || (r =? 5760) || ((8192 <=? r) && (r <=? 8202))
  || (r =? 8232) || (r =? 8233) || (r =? 8239) || (r =? 8287) || (r =? 12288).

(** [strings.ContainsRune] on decoded strings. *)
Definition ContainsRune (s : gostring) (r : rune) : bool :=
  existsb (Z.eqb r) s.

(** ** Constants of the package *)

Definition ESCAPE_CHAR : rune := 92.    (* backslash *)
Definition OPTION_CHAR : rune := 45.    (* dash *)
Definition QUOTE_CHARS : gostring := [96; 39; 34].                 (* backquote, quote, double quote *)
Definition SYMBOL_CHARS : gostring := [124; 62; 60; 35; 123; 40; 91]. (* | > < # { ( [ *)
Definition NO_QUOTE : rune := 65533.    (* unicode.ReplacementChar, U+FFFD *)

(** The map [BRACKETS], as its lookup: [BRACKETS c = Some b] is Go's
    [b, ok := BRACKETS[c]] with [ok = true]. *)
Definition BRACKETS (c : rune) : option rune :=
  if c =? 123 then Some 125        (* braces *)
  else if c =? 91 then Some 93     (* square brackets *)
  else if c =? 40 then Some 41     (* parentheses *)
  else None.

(** ** The scanner *)

Inductive error := EOF.

Record Scanner := mkScanner {
  rd : list rune;            (* what is left to read of [in] *)
  InfieldBrackets : bool
}.

Definition NewScannerString (s : gostring) : Scanner :=
  {| rd := s; InfieldBrackets := false |}.

(** The local variables of one [NextToken] call. *)
Record ScanState := mkState {
  buf : gostring;
  first : bool;
  escape : bool;
  quote : rune;
  brackets : list rune;      (* stack of open brackets, top at the end *)
  delim : Z
}.

Definition init_state : ScanState :=
  {| buf := []; first := true; escape := false; quote := NO_QUOTE;
     brackets := []; delim := 0 |}.

(** What one turn of the [for] loop does with the rune [c] it has read. *)
Inductive Step :=
| Continue (st : ScanState)              (* next iteration *)
| Return (s : gostring) (d : Z)          (* return (s, d, nil) *)
| ReturnRest (b : gostring) (d : Z).     (* io.Copy the rest into b, then return *)

(** [brackets[len(brackets)-1]] *)
Definition top (l : list rune) : option rune := last l.

(** Lines 123-183: the part of the loop body after the beginning-of-token
    checks. *)
Definition step_scan (infield : bool) (st : ScanState) (c : rune) : Step :=
  match brackets st with
  | [] =>
      if IsSpace c && (quote st =? NO_QUOTE) then Return (buf st) c
      else if c =? quote st then Return (buf st) c
      else
        let brackets' :=
          if infield then
            match BRACKETS c with
            | Some b => brackets st ++ [b]
            | None => brackets st
            end
          else brackets st in
        Continue (mkState (buf st ++ [c]) (first st) (escape st) (quote st)
                          brackets' (delim st))
  | _ :: _ =>
      let buf' := buf st ++ [c] in
      if quote st =? NO_QUOTE then
        if bool_decide (top (brackets st) = Some c) then
          let brackets' := removelast (brackets st) in
          match brackets' with
          | [] => Return buf' (delim st)
          | _ :: _ => Continue (mkState buf' (first st) (escape st) (quote st)
                                        brackets' (delim st))
          end
        else if ContainsRune QUOTE_CHARS c then
          Continue (mkState buf' (first st) (escape st) c (brackets st) (delim st))
        else
          match BRACKETS c with
          | Some b => Continue (mkState buf' (first st) (escape st) (quote st)
                                        (brackets st ++ [b]) (delim st))
          | None => Continue (mkState buf' (first st) (escape st) (quote st)
                                      (brackets st) (delim st))
          end
      else if c =? quote st then
        Continue (mkState buf' (first st) (escape st) NO_QUOTE (brackets st) (delim st))
      else
        Continue (mkState buf' (first st) (escape st) (quote st) (brackets st) (delim st))
  end.

(** The whole loop body (lines 62-183) for a rune that was read. *)
Definition step (infield : bool) (st : ScanState) (c : rune) : Step :=
  if (c =? ESCAPE_CHAR) && negb (escape st) then
    Continue (mkState (buf st) false true (quote st) (brackets st) (delim st))
  else if escape st then
    Continue (mkState (buf st ++ [c]) (first st) false (quote st) (brackets st) (delim st))
  else if first st then
    if IsSpace c then Continue st
    else
      let st1 := mkState (buf st) false (escape st) (quote st) (brackets st) (delim st) in
      if ContainsRune QUOTE_CHARS c then
        Continue (mkState (buf st) false (escape st) c (brackets st) (delim st))
      else
        match BRACKETS c with
        | Some b =>
            Continue (mkState (buf st ++ [c]) false (escape st) (quote st)
                              (brackets st ++ [b]) c)
        | None =>
            if ContainsRune SYMBOL_CHARS c then ReturnRest (buf st ++ [c]) (delim st)
            else step_scan infield st1 c
        end
  else step_scan infield st c.

(** The result of [NextToken]: [(s, delim, err)] and the scanner afterwards. *)
Definition TokenResult : Type := gostring * Z * option error * Scanner.

(** The [for] loop, by recursion on what is left to read. *)
Fixpoint scan (infield : bool) (st : ScanState) (input : list rune)
  : gostring * Z * option error * list rune :=
  match input with
  | [] =>
      (* ReadRune fails with io.EOF *)
      if (0 <? Z.of_nat (length (buf st)))
      then (buf st, delim st, None, [])
      else ([], delim st, Some EOF, [])
  | c :: rest =>
      match step infield st c with
      | Continue st' => scan infield st' rest
      | Return s d => (s, d, None, rest)
      | ReturnRest b d => (b ++ rest, d, None, [])
      end
  end.

Definition NextToken (sc : Scanner) : TokenResult :=
  let '(s, d, err, rest) := scan (InfieldBrackets sc) init_state (rd sc) in
  (s, d, err, mkScanner rest (InfieldBrackets sc)).

(** ** Collecting tokens *)

(** [strings.TrimSpace] *)
Definition TrimSpace (s : gostring) : gostring :=
  let dropl := fix dropl (l : gostring) : gostring :=
    match l with
    | c :: l' => if IsSpace c then dropl l' else l
    | [] => []
    end in
  rev (dropl (rev (dropl s))).

(** The inner [for] loop of [getTokens] in option mode (lines 221-242): it
    skips spaces up to the next rune, which it leaves unread. *)
Inductive OptionScan :=
| AtEOF                          (* ReadRune gave io.EOF *)
| AtOption (input : list rune)   (* an OPTION_CHAR is next *)
| AtOther (input : list rune).   (* another rune is next: the rest is returned *)

Fixpoint skip_to_option (input : list rune) : OptionScan :=
  match input with
  | [] => AtEOF
  | c :: rest =>
      if c =? OPTION_CHAR then AtOption input
      else if negb (IsSpace c) then AtOther input
      else skip_to_option rest
  end.

(** What [getTokens] returns, and the scanner afterwards. *)
Definition TokensResult : Type := list gostring * gostring * option error * Scanner.

(** The outer loop of [getTokens] (lines 219-251) with the statements after
    it.  Every iteration that goes on has read at least one rune, so the loop
    is run with one unit of [fuel] per rune left, plus one: [None] stands for
    running out of it, which [getTokens_total] excludes. *)
Fixpoint getTokens_loop (fuel : nat) (max i : Z) (tokens : list gostring)
    (sc : Scanner) : option TokensResult :=
  match fuel with
  | O => None
  | S fuel' =>
      if (max <=? 0) || (i <? max) then
        let next (sc : Scanner) :=
          match NextToken sc with
          | (_, _, Some err, sc') => Some (tokens, [], Some err, sc')
          | (tok, _, None, sc') =>
              getTokens_loop fuel' max (i + 1) (tokens ++ [tok]) sc'
          end in
        if max <? 0 then
          match skip_to_option (rd sc) with
          | AtEOF => Some (tokens, [], None, mkScanner [] (InfieldBrackets sc))
          | AtOther rest =>
              Some (tokens, rest, None, mkScanner [] (InfieldBrackets sc))
          | AtOption input => next (mkScanner input (InfieldBrackets sc))
          end
        else next sc
      else
        Some (tokens, TrimSpace (rd sc), None, mkScanner [] (InfieldBrackets sc))
  end.

Definition getTokens (sc : Scanner) (max : Z) : option TokensResult :=
  getTokens_loop (S (length (rd sc))) max 0 [] sc.

Definition GetTokens (sc : Scanner) : option (list gostring * option error * Scanner) :=
  match getTokens sc 0 with
  | Some (tokens, _, err, sc') => Some (tokens, err, sc')
  | None => None
  end.

Definition GetTokensN (sc : Scanner) (n : Z) : option TokensResult :=
  getTokens sc n.

Definition GetOptionTokens (sc : Scanner) : option TokensResult :=
  getTokens sc (-1).

(** [getScanner]: the only [GetArgsOption] is [InfieldBrackets()], so the
    variadic options amount to one flag. *)
Definition getScanner (line : gostring) (infield : bool) : Scanner :=
  mkScanner line infield.

Definition GetArgs (line : gostring) (infield : bool) : list gostring :=
  match GetTokensN (getScanner line infield) 0 with
  | Some (args, _, _, _) => args
  | None => []
  end.

Definition GetArgsN (line : gostring) (n : Z) (infield : bool) : list gostring :=
  let n := if 0 <? n then n - 1 else n in
  match GetTokensN (getScanner line infield) n with
  | Some (args, rest, _, _) =>
      if bool_decide (rest <> []) then args ++ [rest] else args
  | None => []
  end.

Definition GetOptions (line : gostring) (infield : bool)
  : list gostring * gostring :=
  match GetOptionTokens (getScanner line infield) with
  | Some (options, rest, _, _) => (options, rest)
  | None => ([], [])
  end.

(** ** Options and arguments *)

(** The few functions of package [strings] that [ParseArgs] calls. *)
Fixpoint HasPrefix (s prefix : gostring) : bool :=
  match prefix, s with
  | [], _ => true
  | _ :: _, [] => false
  | p :: prefix', c :: s' => (c =? p) && HasPrefix s' prefix'
  end.

Fixpoint TrimLeft (s cutset : gostring) : gostring :=
  match s with
  | c :: s' => if ContainsRune cutset c then TrimLeft s' cutset else s
  | [] => []
  end.

Fixpoint Contains (s substr : gostring) : bool :=
  HasPrefix s substr ||
  match s with
  | [] => false
  | _ :: s' => Contains s' substr
  end.

(** [strings.SplitN(s, sep, 2)] for a separator that occurs in [s]: the parts
    before and after its first occurrence. *)
Fixpoint SplitN2 (s sep : gostring) : gostring * gostring :=
  if HasPrefix s sep then ([], drop (length sep) s)
  else
    match s with
    | [] => ([], [])
    | c :: s' => let '(a, b) := SplitN2 s' sep in (c :: a, b)
    end.

Record Args := mkArgs {
  Options : gmap gostring gostring;
  Arguments : list gostring
}.

Definition GetOption (a : Args) (name def : gostring) : gostring :=
  match Options a !! name with
  | Some val => val
  | None => def
  end.

(** [strconv.Atoi] for a 64-bit [int], after the documentation of package
    [strconv]: an optional sign and decimal digits; on a syntax error the
    value is 0, on a range error it is the nearest [int]. *)
Inductive NumError := ErrSyntax | ErrRange.

(** The digit loop of [ParseUint] in base 10 with 64 bits. *)
Fixpoint parse_digits (s : gostring) (n : Z) : Z * option NumError :=
  match s with
  | [] => (n, None)
  | c :: s' =>
      if (48 <=? c) && (c <=? 57) then
        if n >=? (2 ^ 64 - 1) / 10 + 1 then (2 ^ 64 - 1, Some ErrRange)
        else
          let n1 := n * 10 + (c - 48) in
          if n1 >? 2 ^ 64 - 1 then (2 ^ 64 - 1, Some ErrRange)
          else parse_digits s' n1
      else (0, Some ErrSyntax)
  end.

Definition Atoi (s : gostring) : Z * option NumError :=
  match s with
  | [] => (0, Some ErrSyntax)
  | c :: s' =>
      let neg := c =? 45 in
      let digits := if (c =? 43) || neg then s' else s in
      match digits with
      | [] => (0, Some ErrSyntax)
      | _ :: _ =>
          match parse_digits digits 0 with
          | (_, Some ErrSyntax) => (0, Some ErrSyntax)
          | (un, _) =>
              if negb neg && (un >=? 2 ^ 63) then (2 ^ 63 - 1, Some ErrRange)
              else if neg && (un >? 2 ^ 63) then (- 2 ^ 63, Some ErrRange)
              else (if neg then - un else un, None)
          end
      end
  end.

Definition GetIntOption (a : Args) (name : gostring) (def : Z) : Z :=
  match Options a !! name with
  | Some val => let '(n, _) := Atoi val in n
  | None => def
  end.

(** The loop of [ParseArgs] (lines 333-355) and the assignment after it. *)
Fixpoint ParseArgs_loop (options : gmap gostring gostring)
    (args : list gostring) : Args :=
  match args with
  | [] => mkArgs options args
  | arg :: args' =>
      if negb (HasPrefix arg [45]) then mkArgs options args
      else if bool_decide (arg = [45; 45]) then mkArgs options args'
      else
        let arg := TrimLeft arg [45] in
        if Contains arg [61] then
          let '(key, value) := SplitN2 arg [61] in
          ParseArgs_loop (<[key := value]> options) args'
        else ParseArgs_loop (<[arg := []]> options) args'
  end.

Definition ParseArgs (line : gostring) : Args :=
  let args := GetArgs line false in
  match args with
  | [] => mkArgs ∅ []
  | _ :: _ => ParseArgs_loop ∅ args
  end.

(** ** Notions used to state the properties *)

(** The states one [NextToken] call goes through. *)
Inductive reachable (infield : bool) : ScanState -> Prop :=
| reach_init : reachable infield init_state
| reach_step st c st' :
    reachable infield st ->
    step infield st c = Continue st' ->
    reachable infield st'.

(** The contents of the token buffer after a turn of the loop. *)
Definition buf_after (r : Step) : gostring :=
  match r with
  | Continue st => buf st
  | Return s _ => s
  | ReturnRest b _ => b
  end.

(** The first [k] tokens that repeated [NextToken] calls give, up to the
    first error, and the scanner after them. *)
Fixpoint take_tokens (k : nat) (sc : Scanner) : list gostring * Scanner :=
  match k with
  | O => ([], sc)
  | S k' =>
      match NextToken sc with
      | (tok, _, None, sc') =>
          let '(toks, sc'') := take_tokens k' sc' in (tok :: toks, sc'')
      | (_, _, Some _, sc') => ([], sc')
      end
  end.

(** Reference for the plain case: splitting on white space with the escape
    character honoured.  A line is first read as a sequence of items, a
    character after an unescaped backslash being literal; fields are then the
    maximal runs without an unescaped space. *)
Inductive Item :=
| Lit (c : rune)     (* escaped: taken as it is *)
| Raw (c : rune).    (* not escaped *)

Fixpoint unescape (line : gostring) : list Item :=
  match line with
  | [] => []
  | c :: line' =>
      if c =? ESCAPE_CHAR then
        match line' with
        | [] => []
        | d :: line'' => Lit d :: unescape line''
        end
      else Raw c :: unescape line'
  end.

Definition separator (i : Item) : bool :=
  match i with
  | Raw c => IsSpace c
  | Lit _ => false
  end.

Definition item_rune (i : Item) : rune :=
  match i with
  | Raw c => c
  | Lit c => c
  end.

(** [fields cur items]: the fields of [items], [cur] being the field that is
    open. *)
Fixpoint fields (cur : gostring) (items : list Item) : list gostring :=
  match items with
  | [] => match cur with [] => [] | _ :: _ => [cur] end
  | i :: items' =>
      if separator i then
        match cur with
        | [] => fields [] items'
        | _ :: _ => cur :: fields [] items'
        end
      else fields (cur ++ [item_rune i]) items'
  end.

Definition split_escaped (line : gostring) : list gostring :=
  fields [] (unescape line).

(** The items of what follows, when the character before was an unescaped
    backslash ([pending]) or not. *)
Definition unescape_from (pending : bool) (line : gostring) : list Item :=
  if pending then
    match line with
    | [] => []
    | d :: line' => Lit d :: unescape line'
    end
  else unescape line.

(** The characters of the plain case, as a test, and the same without the
    exclusion of U+FFFD. *)
Definition is_bracket (c : rune) : bool :=
  ContainsRune [123; 125; 91; 93; 40; 41] c.

Definition no_special (c : rune) : bool :=
  negb (ContainsRune QUOTE_CHARS c) && negb (is_bracket c)
  && negb (ContainsRune SYMBOL_CHARS c).

Definition plain (c : rune) : bool :=
  no_special c && negb (c =? NO_QUOTE).

(** Bracketed text.  [content cl l]: [l] is what may stand inside a bracket
    whose closing character is [cl]: other characters, quoted strings, and
    nested bracketed text. *)
Inductive content (cl : rune) : gostring -> Prop :=
| content_nil : content cl []
| content_char c l :
    c <> cl -> ContainsRune QUOTE_CHARS c = false -> BRACKETS c = None ->
    content cl l -> content cl (c :: l)
| content_quoted q body l :
    ContainsRune QUOTE_CHARS q = true -> q ∉ body ->
    content cl l -> content cl (q :: body ++ q :: l)
| content_nested o cl' body l :
    BRACKETS o = Some cl' -> content cl' body ->
    content cl l -> content cl (o :: body ++ cl' :: l).

Inductive bracketed : gostring -> Prop :=
| bracketed_intro o cl body :
    BRACKETS o = Some cl -> content cl body -> bracketed (o :: body ++ [cl]).

(** Successful [NextToken] calls in a row: [drains sc toks sc'] when the
    calls from [sc] return the tokens [toks], each with a nil error, and
    leave the scanner [sc']. *)
Inductive drains : Scanner -> list gostring -> Scanner -> Prop :=
| drains_nil sc : drains sc [] sc
| drains_cons sc tok d sc' toks sc'' :
    NextToken sc = (tok, d, None, sc') ->
    drains sc' toks sc'' ->
    drains sc (tok :: toks) sc''.

(** What holds of the local variables throughout a [NextToken] call. *)
Record scan_inv (st : ScanState) : Prop := {
  inv_first : first st = true ->
              buf st = [] /\ brackets st = [] /\ escape st = false;
  inv_quote : quote st <> 0;
  inv_delim : delim st = 0 \/
              (head (buf st) = Some (delim st) /\ is_Some (BRACKETS (delim st)))
}.

(** ** Inputs of the examples *)

Definition dquote : rune := 34.

(** The three characters a, b, c between double quotes. *)
Definition quoted_abc : gostring := dquote :: runes "abc" ++ [dquote].

(** The same with a backslash before each double quote. *)
Definition escaped_quoted_abc : gostring :=
  ESCAPE_CHAR :: dquote :: runes "abc" ++ [ESCAPE_CHAR; dquote].

(** An empty quoted string, a space and an x. *)
Definition empty_quoted_x : gostring := dquote :: dquote :: runes " x".

Definition PARSE_LINE : gostring :=
  runes "-l --number=42 -where=here -- -not-an-option- one two three".

(** The options of a line with an option whose value is not a number. *)
Definition malformed_args : Args := ParseArgs (runes "--n=abc").

(** The state after reading an opening brace at the beginning of a token. *)
Definition after_open_brace : ScanState :=
  {| buf := [123]; first := false; escape := false; quote := NO_QUOTE;
     brackets := [125]; delim := 123 |}.

(** A bracketed text with a quoted string that holds a backslash, and a
    nested bracket: an opening brace, a, backslash, n, b between double
    quotes, a colon, 1 between square brackets, a closing brace. *)
Definition json_region : gostring :=
  123 :: dquote :: runes "a\nb" ++ dquote :: runes ":[1]}".

(** The same without the backslash. *)
Definition json_region_unescaped : gostring :=
  123 :: dquote :: runes "anb" ++ dquote :: runes ":[1]}".

(** The letter a, U+FFFD and the letter b. *)
Definition a_replacement_b : gostring := [97; NO_QUOTE; 98].

(** Code points of an ASCII literal in which the tilde stands for the
    double quote. *)
Definition runes_dq (s : string) : gostring :=
  map (fun c => if c =? 126 then dquote else c) (runes s).

(** The line of [ExampleGetArgs] and the output the example expects. *)
Definition EXAMPLE_LINE : gostring :=
  runes_dq "one two three ~double quotes~ 'single quotes' arg\ with\ spaces ~\~quotes\~ in 'quotes'~ '~quotes~ in \'quotes'~".

Definition EXAMPLE_OUTPUT : list gostring :=
  [runes "one"; runes "two"; runes "three"; runes "double quotes";
   runes "single quotes"; runes "arg with spaces";
   runes_dq "~quotes~ in 'quotes'"; runes_dq "~quotes~ in 'quotes"].

(** The line of [ExampleParseArgs]. *)
Definition EXAMPLE_ARGUMENTS : gostring :=
  runes "-l --number=42 -where=here -- -not-an-option- one two three |pipers piping".

(** ** Notions used for the further properties *)

(** A character that opens no bracket. *)
Definition no_opener (c : rune) : bool :=
  match BRACKETS c with
  | Some _ => false
  | None => true
  end.

(** A character that may stand inside a word: not a space, not the escape
    character and not U+FFFD. *)
Definition word_char (c : rune) : bool :=
  negb (IsSpace c) && negb (c =? ESCAPE_CHAR) && negb (c =? NO_QUOTE).

(** A character that may begin a word: a [word_char] that is no quote, no
    opening bracket and no symbol character. *)
Definition word_start (c : rune) : bool :=
  word_char c && negb (ContainsRune QUOTE_CHARS c) && no_opener c
  && negb (ContainsRune SYMBOL_CHARS c).

(** The quote that is open is a quote character, or none is open. *)
Definition quote_inv (st : ScanState) : Prop :=
  quote st = NO_QUOTE \/ ContainsRune QUOTE_CHARS (quote st) = true.

(** The delimiters that [NextToken] can return. *)
Definition delimiter (d : Z) : bool :=
  (d =? 0) || IsSpace d || ContainsRune QUOTE_CHARS d || (d =? NO_QUOTE)
  || negb (no_opener d).

(** The optional last element that [GetArgsN] appends. *)
Definition remainder (rest : gostring) : list gostring :=
  if bool_decide (rest <> []) then [rest] else [].

(** ** The integer that a text stands for

    Reference for [GetIntOption], in terms of the text of the value: an
    optional sign, then a body; [leading_digits] is the run of digits the
    body begins with, and [digits_value] its value in base 10. *)

Definition is_digit (c : rune) : bool := (48 <=? c) && (c <=? 57).

Fixpoint leading_digits (s : gostring) : gostring :=
  match s with
  | c :: s' => if is_digit c then c :: leading_digits s' else []
  | [] => []
  end.

Definition digits_value (ds : gostring) : Z :=
  fold_left (fun n c => n * 10 + (c - 48)) ds 0.

(** The sign (true for a minus) and the body. *)
Definition split_sign (s : gostring) : bool * gostring :=
  match s with
  | c :: s' => if (c =? 43) || (c =? 45) then (c =? 45, s') else (false, s)
  | [] => (false, [])
  end.

(** The largest 64-bit integer, or the smallest after a minus sign. *)
Definition nearest_int (neg : bool) : Z :=
  if neg then - 2 ^ 63 else 2 ^ 63 - 1.

(** The text parses when its body is a run of digits, not empty, and the
    signed value fits in 64 bits. *)
Definition parses (s : gostring) : bool :=
  let '(neg, body) := split_sign s in
  let n := if neg then - digits_value body else digits_value body in
  bool_decide (leading_digits body = body) && negb (bool_decide (body = []))
  && (- 2 ^ 63 <=? n) && (n <=? 2 ^ 63 - 1).

(** The integer read from a text:
    - the nearest integer when the leading digits of the body go beyond
      64 bits without sign, whatever follows them;
    - else 0 when the body is empty or holds a character that is no digit;
    - else the signed value of the body when it fits in 64 bits, and the
      nearest integer when it does not. *)
Definition int_of_text (s : gostring) : Z :=
  let '(neg, body) := split_sign s in
  let v := digits_value (leading_digits body) in
  if 2 ^ 64 - 1 <? v then nearest_int neg
  else if negb (bool_decide (leading_digits body = body))
          || bool_decide (body = []) then 0
  else
    let n := if neg then - v else v in
    if (n <? - 2 ^ 63) || (2 ^ 63 - 1 <? n) then nearest_int neg else n.

(** The options of a line with an option whose value has an x after more
    digits than 64 bits hold. *)
Definition overflow_args : Args := ParseArgs (runes "--n=99999999999999999999x").

(** ** Lines that give no token

    [dangling l]: [l] is white space followed by nothing, by a lone
    backslash, by a lone quote character, or by a quote character and a lone
    backslash. *)
Definition dangling_tail (l : gostring) : bool :=
  match l with
  | [] => true
  | [c] => (c =? ESCAPE_CHAR) || ContainsRune QUOTE_CHARS c
  | [q; c] => ContainsRune QUOTE_CHARS q && (c =? ESCAPE_CHAR)
  | _ => false
  end.

Fixpoint dangling (l : gostring) : bool :=
  match l with
  | [] => true
  | c :: l' => if IsSpace c then dangling l' else dangling_tail l
  end.

(** An opening parenthesis that is not closed: the four characters
    parenthesis, a, space, b. *)
Definition unclosed_paren : gostring := runes "(a b".

(** * Properties *)

(** ** Characters *)

Lemma quote_chars_spec c :
  ContainsRune QUOTE_CHARS c = true <-> c = 96 \/ c = 39 \/ c = 34.
Proof.
  unfold ContainsRune, QUOTE_CHARS. simpl.
  rewrite !orb_true_iff, !Z.eqb_eq. intuition discriminate.
Qed.

Lemma symbol_chars_spec c :
  ContainsRune SYMBOL_CHARS c = true <->
  c = 124 \/ c = 62 \/ c = 60 \/ c = 35 \/ c = 123 \/ c = 40 \/ c = 91.
Proof.
  unfold ContainsRune, SYMBOL_CHARS. simpl.
  rewrite !orb_true_iff, !Z.eqb_eq. intuition discriminate.
Qed.

Lemma brackets_spec c b :
  BRACKETS c = Some b <->
  (c = 123 /\ b = 125) \/ (c = 91 /\ b = 93) \/ (c = 40 /\ b = 41).
Proof.
  unfold BRACKETS.
  destruct (Z.eqb_spec c 123); [split; [intros [= <-]; auto | intros; f_equal; lia]|].
  destruct (Z.eqb_spec c 91); [split; [intros [= <-]; auto | intros; f_equal; lia]|].
  destruct (Z.eqb_spec c 40); [split; [intros [= <-]; auto | intros; f_equal; lia]|].
  split; [discriminate | lia].
Qed.

Lemma brackets_none c :
  BRACKETS c = None <-> c <> 123 /\ c <> 91 /\ c <> 40.
Proof.
  unfold BRACKETS.
  destruct (Z.eqb_spec c 123); [split; [discriminate | lia]|].
  destruct (Z.eqb_spec c 91); [split; [discriminate | lia]|].
  destruct (Z.eqb_spec c 40); [split; [discriminate | lia]|].
  split; auto.
Qed.

Lemma space_nonzero c : IsSpace c = true -> c <> 0.
Proof. intros H ->. discriminate H. Qed.

(** ** The loop of [NextToken] *)

Lemma init_inv : scan_inv init_state.
Proof. split; simpl; auto; discriminate. Qed.

Lemma step_inv infield st c st' :
  scan_inv st -> step infield st c = Continue st' -> scan_inv st'.
Proof.
  assert (Hhead : forall (l : gostring) x y,
             head l = Some x -> head (l ++ [y]) = Some x).
  { intros [|a l] x y; simpl; [discriminate | auto]. }
  assert (Hqc : forall q, ContainsRune QUOTE_CHARS q = true -> q <> 0).
  { intros q Hc%quote_chars_spec. lia. }
  destruct st as [b f e q br d]. intros [Hf Hq Hd]. simpl in *.
  unfold step, step_scan; simpl.
  repeat case_match; intros [= <-]; split; simpl; subst;
    try discriminate; auto;
    try (unfold NO_QUOTE; discriminate);
    try (destruct Hd as [Hd | [Hd1 Hd2]]; [left; exact Hd | right; split; auto]).
  - intros Hf'. destruct (Hf Hf') as (_ & _ & ?). discriminate.
  - destruct Hf as (-> & _ & _); [reflexivity|]. simpl.
    right; split; [reflexivity | eexists; eassumption].
Qed.

Lemma reachable_inv infield st : reachable infield st -> scan_inv st.
Proof.
  induction 1 as [|st c st' _ IH Hs]; [apply init_inv | eapply step_inv; eauto].
Qed.

Lemma step_return infield st c s d :
  scan_inv st -> step infield st c = Return s d -> s <> [] \/ d <> 0.
Proof.
  destruct st as [b f e q br dl]. intros [Hf Hq Hd]. simpl in *.
  unfold step, step_scan; simpl.
  repeat case_match; intros [= <- <-]; subst; try discriminate;
    try (left; intros Hnil; apply app_eq_nil in Hnil as [_ [=]]; fail);
    try (right; apply space_nonzero;
         match goal with H : IsSpace _ && _ = true |- _ =>
           apply andb_true_iff in H as [H _]; exact H end);
    try (right; match goal with H : (_ =? _) = true |- _ =>
           apply Z.eqb_eq in H; subst; assumption end).
Qed.

Lemma step_return_rest infield st c b d :
  step infield st c = ReturnRest b d -> b = buf st ++ [c] /\ d = delim st.
Proof.
  unfold step, step_scan. repeat case_match; intros [= <- <-]; auto.
Qed.

(** The result of the loop started in a state of a [NextToken] call: an
    error comes with no token, no delimiter and nothing left to read; without
    one, the token is not empty or a delimiter was read. *)
Lemma scan_result infield l : forall st,
  scan_inv st ->
  match scan infield st l with
  | (s, d, None, rest) =>
      (s <> [] \/ d <> 0) /\ (length rest <= length l)%nat /\
      (l <> [] -> (length rest < length l)%nat)
  | (s, d, Some _, rest) => s = [] /\ d = 0 /\ rest = []
  end.
Proof.
  induction l as [|c l IH]; intros st Hinv; simpl.
  - destruct (buf st) as [|a b] eqn:Hb; simpl.
    + destruct (inv_delim _ Hinv) as [Hd | [Hd _]]; [auto|].
      rewrite Hb in Hd. discriminate.
    + split; [left; discriminate | split; [lia | congruence]].
  - destruct (step infield st c) as [st' | s d | b d] eqn:Hs.
    + specialize (IH st' (step_inv _ _ _ _ Hinv Hs)).
      destruct (scan infield st' l) as [[[s d] [e|]] rest]; [exact IH|].
      destruct IH as (? & ? & ?). repeat split; auto; simpl; lia.
    + split; [eapply step_return; eauto | simpl; split; intros; lia].
    + apply step_return_rest in Hs as [-> ->].
      split; [left; destruct (buf st); discriminate | simpl; split; intros; lia].
Qed.

Lemma NextToken_result sc :
  match NextToken sc with
  | (s, d, None, sc') =>
      (s <> [] \/ d <> 0) /\ (length (rd sc') < length (rd sc))%nat /\
      InfieldBrackets sc' = InfieldBrackets sc
  | (s, d, Some _, sc') =>
      s = [] /\ d = 0 /\ sc' = mkScanner [] (InfieldBrackets sc)
  end.
Proof.
  unfold NextToken.
  pose proof (scan_result (InfieldBrackets sc) (rd sc) _ init_inv) as H.
  destruct (rd sc) as [|c l] eqn:Hrd; [simpl; auto|].
  destruct (scan _ _ _) as [[[s d] [e|]] rest].
  - destruct H as (-> & -> & ->). auto.
  - destruct H as (? & ? & Hlt). repeat split; auto.
Qed.

Lemma NextToken_empty infield :
  NextToken (mkScanner [] infield) = ([], 0, Some EOF, mkScanner [] infield).
Proof. reflexivity. Qed.

(** ** The loop of [getTokens] *)

Lemma skip_to_option_length input input' :
  skip_to_option input = AtOption input' ->
  (length input' <= length input)%nat.
Proof.
  induction input as [|c l IH]; simpl; [discriminate|].
  repeat case_match; [intros [= <-]; simpl; lia | discriminate |].
  intros Hs. apply IH in Hs. lia.
Qed.

(** The loop never runs out of the fuel that [getTokens] gives it. *)
Lemma getTokens_loop_total fuel : forall max i tokens sc,
  (length (rd sc) < fuel)%nat ->
  exists r, getTokens_loop fuel max i tokens sc = Some r.
Proof.
  induction fuel as [|fuel IH]; intros max i tokens sc Hlen; [lia|]. simpl.
  assert (Hnext : forall sc0, (length (rd sc0) <= length (rd sc))%nat ->
    exists r,
      match NextToken sc0 with
      | (_, _, Some err, sc') => Some (tokens, [], Some err, sc')
      | (tok, _, None, sc') =>
          getTokens_loop fuel max (i + 1) (tokens ++ [tok]) sc'
      end = Some r).
  { intros sc0 Hle. pose proof (NextToken_result sc0) as H.
    destruct (NextToken sc0) as [[[s d] [e|]] sc']; [eauto|].
    destruct H as (_ & Hlt & _). apply IH. lia. }
  destruct ((max <=? 0) || (i <? max)); [|eauto].
  destruct (max <? 0); [|apply Hnext; lia].
  destruct (skip_to_option (rd sc)) as [|input|input] eqn:Hskip; eauto.
  apply Hnext. simpl. eapply skip_to_option_length; eauto.
Qed.

Lemma getTokens_total sc max : exists r, getTokens sc max = Some r.
Proof. apply getTokens_loop_total. lia. Qed.

(** Without a bound the loop returns the tokens of the successful calls, and
    stops at the call that signals the end of the stream. *)
Lemma getTokens_loop_all fuel : forall i tokens sc,
  (length (rd sc) < fuel)%nat ->
  exists toks sc',
    drains sc toks sc' /\
    NextToken sc' = ([], 0, Some EOF, mkScanner [] (InfieldBrackets sc)) /\
    getTokens_loop fuel 0 i tokens sc =
      Some (tokens ++ toks, [], Some EOF, mkScanner [] (InfieldBrackets sc)) /\
    take_tokens fuel sc = (toks, mkScanner [] (InfieldBrackets sc)).
Proof.
  induction fuel as [|fuel IH]; intros i tokens sc Hlen; [lia|]. simpl.
  pose proof (NextToken_result sc) as H.
  destruct (NextToken sc) as [[[s d] [e|]] sc1] eqn:Hnt.
  - destruct H as (-> & -> & ->). destruct e.
    exists [], sc. rewrite app_nil_r. repeat split; auto. constructor.
  - destruct H as (_ & Hlt & Hib).
    destruct (IH (i + 1) (tokens ++ [s]) sc1) as (toks & sc' & Hd & He & Hg & Ht);
      [lia|].
    rewrite Hib in *. exists (s :: toks), sc'. repeat split; auto.
    + econstructor; eauto.
    + rewrite Hg, <- app_assoc. reflexivity.
    + rewrite Ht. reflexivity.
Qed.

(** With a positive bound [max], the loop returns up to [max] tokens and the
    trimmed rest of the input. *)
Lemma getTokens_loop_bounded fuel : forall max i tokens sc,
  0 < max -> i <= max -> (length (rd sc) < fuel)%nat ->
  exists e sc',
    getTokens_loop fuel max i tokens sc =
      Some (tokens ++ (take_tokens (Z.to_nat (max - i)) sc).1,
            TrimSpace (rd (take_tokens (Z.to_nat (max - i)) sc).2), e, sc').
Proof.
  induction fuel as [|fuel IH]; intros max i tokens sc Hmax Hi Hlen; [lia|].
  simpl. replace (max <=? 0) with false by lia.
  replace (max <? 0) with false by lia. simpl.
  destruct (Z.ltb_spec i max) as [Hlt|Hge].
  - replace (Z.to_nat (max - i)) with (S (Z.to_nat (max - (i + 1)))) by lia.
    simpl. pose proof (NextToken_result sc) as H.
    destruct (NextToken sc) as [[[s d] [e|]] sc1] eqn:Hnt.
    + destruct H as (-> & -> & ->). simpl. rewrite app_nil_r. eauto.
    + destruct H as (_ & Hlt' & _).
      destruct (IH max (i + 1) (tokens ++ [s]) sc1) as (e & sc' & Hg); [lia..|].
      rewrite Hg. destruct (take_tokens _ sc1) as [toks sc2]. simpl.
      rewrite <- app_assoc. eauto.
  - replace (Z.to_nat (max - i)) with O by lia. simpl.
    rewrite app_nil_r. eauto.
Qed.

(** ** The examples of the package

    The model gives the outputs that the package's own examples expect. *)

Example ExampleGetArgs : GetArgs EXAMPLE_LINE false = EXAMPLE_OUTPUT.
Proof. vm_compute. reflexivity. Qed.

Example ExampleParseArgs :
  ParseArgs EXAMPLE_ARGUMENTS =
    mkArgs {[ runes "l" := []; runes "number" := runes "42";
              runes "where" := runes "here" ]}
           [runes "-not-an-option-"; runes "one"; runes "two"; runes "three";
            runes "|pipers piping"].
Proof. vm_compute. reflexivity. Qed.

Example Atoi_examples :
  Atoi (runes "42") = (42, None) /\ Atoi (runes "-42") = (-42, None) /\
  Atoi (runes "+7") = (7, None) /\ Atoi [] = (0, Some ErrSyntax) /\
  Atoi (runes "4x") = (0, Some ErrSyntax) /\
  Atoi (runes "9223372036854775807") = (9223372036854775807, None) /\
  Atoi (runes "9223372036854775808") = (9223372036854775807, Some ErrRange) /\
  Atoi (runes "-9223372036854775808") = (-9223372036854775808, None).
Proof. vm_compute. repeat split. Qed.

(** ** Quotes and escaped quotes *)

(** C4. Tokenizing the three letters abc between double quotes gives the one
    token abc, without the quotes; with a backslash before each quote it
    gives the one token made of abc between double quotes: the escape
    character turns the interpretation of the quote off.  This holds with
    and without [InfieldBrackets]. *)
Theorem quote_stripping (infield : bool) :
  GetArgs quoted_abc infield = [runes "abc"] /\
  NextToken (mkScanner quoted_abc infield)
    = (runes "abc", dquote, None, mkScanner [] infield) /\
  GetArgs escaped_quoted_abc infield = [quoted_abc] /\
  NextToken (mkScanner escaped_quoted_abc infield)
    = (quoted_abc, 0, None, mkScanner [] infield).
Proof. destruct infield; vm_compute; auto. Qed.

(** C10. [NextToken] can return an empty token with a nil error in the
    middle of the stream: on an empty quoted string followed by a space and
    an x, the first call returns the empty token with the closing quote as
    delimiter, the second the token x, and only the third signals the end of
    the stream. *)
Theorem empty_token_mid_stream (infield : bool) :
  NextToken (mkScanner empty_quoted_x infield)
    = ([], dquote, None, mkScanner (runes " x") infield) /\
  NextToken (mkScanner (runes " x") infield)
    = (runes "x", 0, None, mkScanner [] infield) /\
  NextToken (mkScanner [] infield)
    = ([], 0, Some EOF, mkScanner [] infield) /\
  GetArgs empty_quoted_x infield = [[]; runes "x"].
Proof. destruct infield; vm_compute; auto. Qed.

(** ** [ParseArgs] *)

(** C9. On the line of the package's example, [ParseArgs] gives the options
    l (empty), number (42) and where (here) and the arguments
    -not-an-option-, one, two, three; the token of two dashes ends the
    options and is neither an option nor an argument. *)
Theorem ParseArgs_example :
  ParseArgs PARSE_LINE =
    mkArgs {[ runes "l" := []; runes "number" := runes "42";
              runes "where" := runes "here" ]}
           [runes "-not-an-option-"; runes "one"; runes "two"; runes "three"] /\
  Options (ParseArgs PARSE_LINE) !! runes "--" = None /\
  Options (ParseArgs PARSE_LINE) !! [] = None /\
  runes "--" ∉ Arguments (ParseArgs PARSE_LINE).
Proof.
  assert (He : ParseArgs PARSE_LINE =
    mkArgs {[ runes "l" := []; runes "number" := runes "42";
              runes "where" := runes "here" ]}
           [runes "-not-an-option-"; runes "one"; runes "two"; runes "three"])
    by (vm_compute; reflexivity).
  split; [exact He|]. rewrite He. simpl.
  repeat split; [vm_compute; reflexivity..|].
  intros Hin. apply list_elem_of_In in Hin. vm_compute in Hin.
  intuition discriminate.
Qed.

(** ** [GetIntOption] *)

Lemma Atoi_syntax_zero s n : Atoi s = (n, Some ErrSyntax) -> n = 0.
Proof.
  unfold Atoi. repeat case_match; intros [= <-]; subst; try reflexivity;
    congruence.
Qed.

(** C1, as stated, fails: an option whose value is not a number is read as
    0, not as the default. *)
Lemma GetIntOption_default_counterexample :
  Options malformed_args !! runes "n" = Some (runes "abc") /\
  Atoi (runes "abc") = (0, Some ErrSyntax) /\
  GetIntOption malformed_args (runes "n") 7 = 0 /\
  GetIntOption malformed_args (runes "n") 7 <> 7.
Proof. vm_compute. repeat split; discriminate. Qed.

Lemma leading_digits_all (s : gostring) :
  forallb is_digit (leading_digits s) = true.
Proof.
  induction s as [|c s IH]; [reflexivity|]. simpl.
  destruct (is_digit c) eqn:Hc; [simpl; rewrite Hc; exact IH | reflexivity].
Qed.

Lemma digits_fold_mono (ds : gostring) : forall n,
  0 <= n -> forallb is_digit ds = true ->
  n <= fold_left (fun n c => n * 10 + (c - 48)) ds n.
Proof.
  induction ds as [|c ds IH]; intros n Hn Hd; simpl; [lia|].
  simpl in Hd. apply andb_true_iff in Hd as [Hc Hd].
  unfold is_digit in Hc. apply andb_true_iff in Hc as [Hc1 Hc2].
  specialize (IH (n * 10 + (c - 48)) ltac:(lia) Hd). lia.
Qed.

(** The digit loop against the reference: a range error as soon as the
    digits read go beyond 64 bits, else a syntax error at a character that
    is no digit, else the value. *)
Lemma parse_digits_spec (s : gostring) : forall n,
  0 <= n <= 2 ^ 64 - 1 ->
  parse_digits s n =
    let v := fold_left (fun n c => n * 10 + (c - 48)) (leading_digits s) n in
    if 2 ^ 64 - 1 <? v then (2 ^ 64 - 1, Some ErrRange)
    else if bool_decide (leading_digits s = s) then (v, None)
    else (0, Some ErrSyntax).
Proof.
  change (2 ^ 64 - 1) with 18446744073709551615.
  induction s as [|c s IH]; intros n Hn.
  - simpl. replace (18446744073709551615 <? n) with false by lia. reflexivity.
  - cbn [parse_digits leading_digits]. fold (is_digit c).
    change ((2 ^ 64 - 1) / 10 + 1) with 1844674407370955162.
    change (2 ^ 64 - 1) with 18446744073709551615.
    destruct (is_digit c) eqn:Hc.
    + pose proof Hc as Hc'. unfold is_digit in Hc'.
      apply andb_true_iff in Hc' as [Hc1 Hc2].
      cbn [fold_left].
      pose proof (digits_fold_mono (leading_digits s) (n * 10 + (c - 48))
                    ltac:(lia) (leading_digits_all s)) as Hmono.
      cbv zeta in *.
      destruct (Z.geb_spec n 1844674407370955162) as [Hge|Hlt].
      { replace (18446744073709551615 <? _) with true by lia. reflexivity. }
      destruct (Z.gtb_spec (n * 10 + (c - 48)) 18446744073709551615) as [Hgt|Hle].
      { replace (18446744073709551615 <? _) with true by lia. reflexivity. }
      rewrite IH by lia.
      destruct (18446744073709551615 <? _); [reflexivity|].
      destruct (decide (leading_digits s = s)) as [He|He].
      * rewrite !bool_decide_eq_true_2 by congruence. reflexivity.
      * rewrite !bool_decide_eq_false_2 by congruence. reflexivity.
    + cbn [fold_left]. cbv zeta.
      replace (18446744073709551615 <? n) with false by lia.
      rewrite bool_decide_eq_false_2 by discriminate. reflexivity.
Qed.

(** [strconv.Atoi] reads the integer of the reference, and reports no
    error exactly when the text parses. *)
Lemma Atoi_int_of_text (s : gostring) :
  (Atoi s).1 = int_of_text s /\
  ((Atoi s).2 = None <-> parses s = true).
Proof.
  assert (Hbody : forall (neg : bool) (body : gostring), body <> [] ->
    let r := match parse_digits body 0 with
             | (_, Some ErrSyntax) => (0, Some ErrSyntax)
             | (un, _) =>
                 if negb neg && (un >=? 2 ^ 63) then (2 ^ 63 - 1, Some ErrRange)
                 else if neg && (un >? 2 ^ 63) then (- 2 ^ 63, Some ErrRange)
                 else (if neg then - un else un, None)
             end in
    let v := digits_value (leading_digits body) in
    r.1 = (if 2 ^ 64 - 1 <? v then nearest_int neg
           else if negb (bool_decide (leading_digits body = body))
                   || bool_decide (body = []) then 0
           else let n := if neg then - v else v in
                if (n <? - 2 ^ 63) || (2 ^ 63 - 1 <? n) then nearest_int neg
                else n) /\
    (r.2 = None <->
     bool_decide (leading_digits body = body) && negb (bool_decide (body = []))
     && (- 2 ^ 63 <=? (if neg then - digits_value body else digits_value body))
     && ((if neg then - digits_value body else digits_value body)
         <=? 2 ^ 63 - 1) = true)).
  { intros neg body Hne. cbv zeta.
    rewrite parse_digits_spec by (change (2 ^ 64 - 1) with 18446744073709551615; lia).
    cbv zeta. fold (digits_value (leading_digits body)).
    rewrite (bool_decide_eq_false_2 (body = [])) by exact Hne.
    rewrite orb_false_r. cbn [negb]. rewrite andb_true_r.
    pose proof (digits_fold_mono (leading_digits body) 0 ltac:(lia)
                  (leading_digits_all body)) as Hpos.
    fold (digits_value (leading_digits body)) in Hpos.
    unfold nearest_int.
    change (2 ^ 64 - 1) with 18446744073709551615.
    change (2 ^ 63 - 1) with 9223372036854775807.
    change (2 ^ 63) with 9223372036854775808.
    destruct (decide (leading_digits body = body)) as [He|He].
    - rewrite !bool_decide_eq_true_2 by exact He. rewrite He in *.
      set (v := digits_value body) in *. cbn [negb andb].
      destruct neg; cbn [negb andb];
        repeat match goal with
               | |- context [Z.ltb ?a ?b] => destruct (Z.ltb_spec a b)
               | |- context [Z.leb ?a ?b] => destruct (Z.leb_spec a b)
               | |- context [Z.geb ?a ?b] => destruct (Z.geb_spec a b)
               | |- context [Z.gtb ?a ?b] => destruct (Z.gtb_spec a b)
               end; cbn [negb andb orb fst snd]; try lia;
        (split; [reflexivity || lia | split; intros; discriminate || reflexivity || lia]).
    - rewrite !bool_decide_eq_false_2 by exact He. cbn [negb andb].
      destruct (Z.ltb_spec 18446744073709551615 (digits_value (leading_digits body)));
        destruct neg; cbn [negb andb fst snd];
        (split; [reflexivity | split; discriminate]). }
  unfold Atoi, int_of_text, parses, split_sign.
  destruct s as [|c s]; [split; [reflexivity | split; discriminate]|].
  destruct (Z.eqb_spec c 43) as [->|H43]; [|destruct (Z.eqb_spec c 45) as [->|H45]];
    cbn [orb].
  - change (43 =? 45) with false.
    destruct s as [|d s]; [split; [reflexivity | split; discriminate]|].
    apply (Hbody false (d :: s)). discriminate.
  - change (45 =? 45) with true.
    destruct s as [|d s]; [split; [reflexivity | split; discriminate]|].
    apply (Hbody true (d :: s)). discriminate.
  - apply (Hbody false (c :: s)). discriminate.
Qed.

(** C1, amended. [GetIntOption name def] returns [def] when the name is
    absent.  When it is present, neither the default nor an error comes
    back: the result is the integer that [strconv.Atoi] leaves, its error
    dropped, which depends on the text of the value only.  The value being
    an optional sign and a body: when it parses (the body is a run of
    digits, not empty, and the signed value fits in 64 bits) the result is
    that integer; when the leading digits of the body go beyond 64 bits
    without sign, whatever follows them, or the body is all digits and the
    signed value does not fit, it is the nearest integer; otherwise (an
    empty body, or a character that is no digit) it is 0. *)
Theorem GetIntOption_spec (a : Args) (name : gostring) (def : Z) :
  match Options a !! name with
  | None => GetIntOption a name def = def
  | Some val =>
      GetIntOption a name def = int_of_text val /\
      (if parses val
       then int_of_text val
            = (if (split_sign val).1 then - digits_value (split_sign val).2
               else digits_value (split_sign val).2)
       else int_of_text val = 0 \/
            int_of_text val = nearest_int (split_sign val).1)
  end.
Proof.
  unfold GetIntOption. destruct (Options a !! name) as [val|]; [|reflexivity].
  pose proof (Atoi_int_of_text val) as [Hv _].
  destruct (Atoi val) as [n e]. simpl in Hv. split; [exact Hv|].
  clear. unfold parses, int_of_text. destruct (split_sign val) as [neg body].
  cbn [fst snd].
  destruct (decide (leading_digits body = body)) as [He|He].
  - rewrite !bool_decide_eq_true_2 by exact He. rewrite He. cbn [negb orb andb].
    destruct (decide (body = [])) as [Hb|Hb].
    + rewrite !bool_decide_eq_true_2 by exact Hb. subst body. cbn.
      destruct neg; auto.
    + rewrite !bool_decide_eq_false_2 by exact Hb. cbn [negb andb].
      set (n := if neg then - digits_value body else digits_value body).
      assert (Hn : 2 ^ 64 - 1 < digits_value body ->
                   n < - 2 ^ 63 \/ 2 ^ 63 - 1 < n).
      { change (2 ^ 64 - 1) with 18446744073709551615.
        change (2 ^ 63 - 1) with 9223372036854775807.
        change (2 ^ 63) with 9223372036854775808.
        subst n. destruct neg; lia. }
      destruct (Z.leb_spec (- 2 ^ 63) n) as [H1|H1];
        destruct (Z.leb_spec n (2 ^ 63 - 1)) as [H2|H2]; cbn [andb];
        destruct (Z.ltb_spec (2 ^ 64 - 1) (digits_value body)) as [H3|H3];
        try (right; reflexivity); try (exfalso; apply Hn in H3; lia).
      * replace (n <? - 2 ^ 63) with false by lia.
        replace (2 ^ 63 - 1 <? n) with false by lia. reflexivity.
      * replace (2 ^ 63 - 1 <? n) with true by lia. rewrite orb_true_r. auto.
      * replace (n <? - 2 ^ 63) with true by lia. auto.
      * replace (n <? - 2 ^ 63) with true by lia. auto.
  - rewrite !bool_decide_eq_false_2 by exact He. cbn [negb orb andb].
    destruct (2 ^ 64 - 1 <? _); auto.
Qed.

(** The three kinds of value, after the line of the package's example: a
    number; a text that is no number; digits beyond 64 bits before an x. *)
Example GetIntOption_values :
  GetIntOption (ParseArgs PARSE_LINE) (runes "number") 7 = 42 /\
  GetIntOption (ParseArgs PARSE_LINE) (runes "count") 7 = 7 /\
  GetIntOption malformed_args (runes "n") 7 = 0 /\
  GetIntOption overflow_args (runes "n") 7 = 9223372036854775807.
Proof. vm_compute. auto. Qed.

(** ** Draining a scanner *)

Lemma drains_unique sc toks1 sc1 :
  drains sc toks1 sc1 ->
  forall toks2 sc2 s1 d1 e1 r1 s2 d2 e2 r2,
    drains sc toks2 sc2 ->
    NextToken sc1 = (s1, d1, Some e1, r1) ->
    NextToken sc2 = (s2, d2, Some e2, r2) ->
    toks1 = toks2.
Proof.
  induction 1 as [sc|sc tok d sc' toks sc'' Hnt _ IH];
    intros toks2 sc2 s1 d1 e1 r1 s2 d2 e2 r2 Hd2 H1 H2.
  - destruct Hd2 as [|? ? ? ? ? ? Hnt2 _]; [reflexivity | congruence].
  - destruct Hd2 as [sc|sc tok2 dd sc3 toks2 sc4 Hnt2 Hd2]; [congruence|].
    rewrite Hnt in Hnt2. injection Hnt2 as <- _ <-.
    f_equal. eapply IH; eauto.
Qed.

(** [GetArgs] returns the tokens of the successful calls up to the first
    call that returns an error. *)
Lemma GetArgs_drains line infield toks sc' s d e r :
  drains (mkScanner line infield) toks sc' ->
  NextToken sc' = (s, d, Some e, r) ->
  GetArgs line infield = toks.
Proof.
  intros Hd He.
  destruct (getTokens_loop_all (S (length line)) 0 [] (mkScanner line infield))
    as (toks0 & sc0 & Hd0 & He0 & Hg & _); [simpl; lia|].
  unfold GetArgs, GetTokensN, getTokens, getScanner. simpl rd. rewrite Hg.
  simpl. eapply drains_unique; eauto.
Qed.

(** ** End of the stream *)

(** C8 at an unclosed bracket: the input ends inside the token, which is
    returned with a nil error, but with the opening parenthesis as
    delimiter, where the end of the input is to leave the delimiter 0; the
    call after it signals the end of the stream. *)
Theorem unclosed_bracket_delimiter (infield : bool) :
  NextToken (mkScanner unclosed_paren infield)
    = (unclosed_paren, 40, None, mkScanner [] infield) /\
  NextToken (mkScanner [] infield) = ([], 0, Some EOF, mkScanner [] infield).
Proof. destruct infield; vm_compute; auto. Qed.

(** ** Symbol characters *)

Lemma space_not_escape c : IsSpace c = true -> (c =? ESCAPE_CHAR) = false.
Proof.
  intros H. destruct (Z.eqb_spec c ESCAPE_CHAR) as [->|]; [discriminate H | auto].
Qed.

Lemma scan_leading_spaces infield ws l :
  forallb IsSpace ws = true ->
  scan infield init_state (ws ++ l) = scan infield init_state l.
Proof.
  induction ws as [|c ws IH]; [reflexivity|].
  simpl. intros [Hc Hws]%andb_true_iff.
  unfold step. rewrite (space_not_escape c Hc). simpl. rewrite Hc. auto.
Qed.

Lemma step_symbol infield c :
  ContainsRune SYMBOL_CHARS c = true -> BRACKETS c = None ->
  step infield init_state c = ReturnRest [c] 0.
Proof.
  intros Hs Hb. apply symbol_chars_spec in Hs. apply brackets_none in Hb.
  assert (Hc : c = 124 \/ c = 62 \/ c = 60 \/ c = 35) by lia.
  destruct Hc as [-> | [-> | [-> | ->]]]; reflexivity.
Qed.

(** C7. When the first character of a line that is not a space is a symbol
    character other than an opening bracket, [NextToken] returns one token,
    made of that character and all the rest of the input; the next call
    signals the end of the stream, so the line has this one token. *)
Theorem symbol_short_circuit (infield : bool) (ws : gostring) (c : rune)
    (rest : gostring) :
  forallb IsSpace ws = true ->
  ContainsRune SYMBOL_CHARS c = true ->
  BRACKETS c = None ->
  NextToken (mkScanner (ws ++ c :: rest) infield)
    = (c :: rest, 0, None, mkScanner [] infield) /\
  NextToken (mkScanner [] infield) = ([], 0, Some EOF, mkScanner [] infield) /\
  GetArgs (ws ++ c :: rest) infield = [c :: rest].
Proof.
  intros Hws Hs Hb.
  assert (Hnt : NextToken (mkScanner (ws ++ c :: rest) infield)
                = (c :: rest, 0, None, mkScanner [] infield)).
  { unfold NextToken. simpl rd. simpl InfieldBrackets.
    rewrite (scan_leading_spaces _ _ _ Hws). simpl.
    rewrite (step_symbol _ _ Hs Hb). reflexivity. }
  repeat split; [exact Hnt|].
  eapply GetArgs_drains; [|apply NextToken_empty].
  econstructor; [exact Hnt | constructor].
Qed.

Lemma symbol_short_circuit_witness :
  NextToken (mkScanner (runes "  #comment text") false)
    = (runes "#comment text", 0, None, mkScanner [] false) /\
  NextToken (mkScanner [] false) = ([], 0, Some EOF, mkScanner [] false) /\
  GetArgs (runes "  #comment text") false = [runes "#comment text"].
Proof.
  apply (symbol_short_circuit false (runes "  ") 35 (runes "comment text"));
    reflexivity.
Defined.

(** ** [GetArgsN] *)

(** C2 at n = 1: [GetArgsN] passes the bound 0 to [getTokens], which means
    no bound, and the result has all three tokens of the line, where at most
    one element was to be returned. *)
Theorem GetArgsN_one_unbounded :
  GetArgsN (runes "a b c") 1 false = [runes "a"; runes "b"; runes "c"] /\
  (length (GetArgsN (runes "a b c") 1 false) > 1)%nat.
Proof. vm_compute. split; [reflexivity | lia]. Qed.

Lemma GetArgsN_one line infield : GetArgsN line 1 infield = GetArgs line infield.
Proof.
  unfold GetArgsN, GetArgs.
  change (if 0 <? 1 then 1 - 1 else 1) with 0.
  destruct (getTokens_loop_all (S (length line)) 0 [] (getScanner line infield))
    as (toks & sc' & _ & _ & Hg & _); [simpl; lia|].
  unfold GetTokensN, getTokens. simpl rd. rewrite Hg. reflexivity.
Qed.

Lemma take_tokens_length k : forall sc,
  (length (take_tokens k sc).1 <= k)%nat.
Proof.
  induction k as [|k IH]; intros sc; simpl; [lia|].
  destruct (NextToken sc) as [[[s d] [e|]] sc1]; simpl; [lia|].
  specialize (IH sc1). destruct (take_tokens k sc1). simpl in *. lia.
Qed.

(** X20. From n = 2 on, [GetArgsN] returns the first n - 1 tokens that
    [NextToken] gives (fewer when the stream ends before), then the trimmed
    rest of the input when it is not empty: at most n elements. *)
Theorem GetArgsN_bounded (line : gostring) (n : Z) (infield : bool) :
  2 <= n ->
  let toks := (take_tokens (Z.to_nat (n - 1)) (mkScanner line infield)).1 in
  let rest :=
    TrimSpace (rd (take_tokens (Z.to_nat (n - 1)) (mkScanner line infield)).2) in
  GetArgsN line n infield
    = toks ++ (if bool_decide (rest <> []) then [rest] else []) /\
  Z.of_nat (length toks) <= n - 1 /\
  Z.of_nat (length (GetArgsN line n infield)) <= n.
Proof.
  intros Hn toks rest.
  assert (Hlen : Z.of_nat (length toks) <= n - 1).
  { pose proof (take_tokens_length (Z.to_nat (n - 1)) (mkScanner line infield)).
    subst toks. lia. }
  assert (Heq : GetArgsN line n infield
                = toks ++ (if bool_decide (rest <> []) then [rest] else [])).
  { unfold GetArgsN. replace (0 <? n) with true by lia.
    destruct (getTokens_loop_bounded (S (length line)) (n - 1) 0 []
                (getScanner line infield)) as (e & sc' & Hg); [lia | lia | simpl; lia |].
    unfold GetTokensN, getTokens. simpl rd. rewrite Hg.
    rewrite Z.sub_0_r. simpl. unfold getScanner. fold toks. fold rest.
    destruct (bool_decide (rest <> [])); [reflexivity | rewrite app_nil_r; reflexivity]. }
  repeat split; auto. rewrite Heq, length_app.
  destruct (bool_decide (rest <> [])); simpl; lia.
Qed.

Lemma GetArgsN_bounded_witness :
  GetArgsN (runes "a b  c d ") 3 false
    = [runes "a"; runes "b"; runes "c d"].
Proof.
  pose proof (GetArgsN_bounded (runes "a b  c d ") 3 false) as H.
  destruct H as (H & _); [lia|]. rewrite H. vm_compute. reflexivity.
Defined.

(** ** Inside brackets *)

(** C6, as stated, fails for the escape character: after an opening brace,
    a backslash is read without being appended to the buffer, and the token
    returned for an input with a backslash inside braces lacks it. *)
Lemma inside_brackets_escape_counterexample :
  reachable false after_open_brace /\
  brackets after_open_brace <> [] /\
  buf_after (step false after_open_brace ESCAPE_CHAR) = buf after_open_brace /\
  buf_after (step false after_open_brace ESCAPE_CHAR)
    <> buf after_open_brace ++ [ESCAPE_CHAR] /\
  NextToken (mkScanner (runes "{a\}b}") false)
    = (runes "{a}b}", 123, None, mkScanner [] false).
Proof.
  split; [|vm_compute; repeat split; discriminate].
  apply (reach_step false init_state 123); [constructor | reflexivity].
Qed.

(** C6, amended. While the stack of brackets is not empty, every character
    read is appended to the token buffer, whatever it is (quote, bracket,
    space, an escaped character), except the escape character when it is not
    itself escaped: that one is read and not appended. *)
Theorem inside_brackets_appends (infield : bool) (st : ScanState) (c : rune) :
  reachable infield st ->
  brackets st <> [] ->
  buf_after (step infield st c)
    = if (c =? ESCAPE_CHAR) && negb (escape st) then buf st else buf st ++ [c].
Proof.
  intros Hr Hb. apply reachable_inv in Hr as [Hf _ _].
  assert (Hfirst : first st = false).
  { destruct (first st); [|reflexivity]. destruct Hf as (_ & ? & _); congruence. }
  unfold step, step_scan. rewrite Hfirst.
  destruct (brackets st) as [|x br]; [congruence|].
  repeat case_match; reflexivity.
Qed.

Lemma inside_brackets_appends_witness :
  buf_after (step false after_open_brace dquote) = [123; dquote].
Proof.
  rewrite (inside_brackets_appends false after_open_brace dquote).
  - reflexivity.
  - apply (reach_step false init_state 123); [constructor | reflexivity].
  - discriminate.
Defined.

(** The loop body in a state with open brackets, the top one closed by
    [cl], for a character that is not an unescaped backslash. *)
Lemma step_in_brackets infield b q stk cl d c :
  c <> ESCAPE_CHAR ->
  step infield (mkState b false false q (stk ++ [cl]) d) c =
    if q =? NO_QUOTE then
      if bool_decide (c = cl) then
        match stk with
        | [] => Return (b ++ [c]) d
        | _ :: _ => Continue (mkState (b ++ [c]) false false q stk d)
        end
      else if ContainsRune QUOTE_CHARS c then
        Continue (mkState (b ++ [c]) false false c (stk ++ [cl]) d)
      else
        match BRACKETS c with
        | Some b' =>
            Continue (mkState (b ++ [c]) false false q ((stk ++ [cl]) ++ [b']) d)
        | None => Continue (mkState (b ++ [c]) false false q (stk ++ [cl]) d)
        end
    else if c =? q then
      Continue (mkState (b ++ [c]) false false NO_QUOTE (stk ++ [cl]) d)
    else Continue (mkState (b ++ [c]) false false q (stk ++ [cl]) d).
Proof.
  intros Hc. unfold step, step_scan. simpl.
  replace (c =? ESCAPE_CHAR) with false by (symmetry; apply Z.eqb_neq; exact Hc).
  simpl. unfold top. rewrite last_snoc, removelast_last.
  destruct (stk ++ [cl]) as [|x l] eqn:Hstk; [destruct stk; discriminate|].
  destruct (q =? NO_QUOTE); [|reflexivity].
  destruct (decide (c = cl)) as [->|Hne].
  - rewrite !bool_decide_eq_true_2 by reflexivity. reflexivity.
  - rewrite !bool_decide_eq_false_2 by congruence. reflexivity.
Qed.

Lemma closer_facts o cl :
  BRACKETS o = Some cl ->
  ContainsRune QUOTE_CHARS cl = false /\ BRACKETS cl = None /\
  cl <> ESCAPE_CHAR /\ ContainsRune QUOTE_CHARS o = false /\
  o <> ESCAPE_CHAR /\ IsSpace o = false /\
  forall o' cl', BRACKETS o' = Some cl' -> o' <> cl.
Proof.
  intros H%brackets_spec.
  assert (Hne : forall o' cl', BRACKETS o' = Some cl' ->
                  o' = 123 \/ o' = 91 \/ o' = 40).
  { intros o' cl' H'%brackets_spec. lia. }
  destruct H as [[-> ->] | [[-> ->] | [-> ->]]];
    (repeat split; [reflexivity || discriminate ..|]);
    intros o' cl' H'; specialize (Hne _ _ H'); lia.
Qed.

Lemma scan_quoted_body infield q cl d k body : forall b stk,
  ContainsRune QUOTE_CHARS q = true ->
  q ∉ body -> ESCAPE_CHAR ∉ body ->
  scan infield (mkState b false false q (stk ++ [cl]) d) (body ++ k)
    = scan infield (mkState (b ++ body) false false q (stk ++ [cl]) d) k.
Proof.
  induction body as [|c body IH]; intros b stk Hq Hnq Hne; simpl.
  - rewrite app_nil_r. reflexivity.
  - apply not_elem_of_cons in Hnq as [Hcq Hnq].
    apply not_elem_of_cons in Hne as [Hce Hne].
    rewrite step_in_brackets by congruence.
    replace (q =? NO_QUOTE) with false
      by (apply quote_chars_spec in Hq; unfold NO_QUOTE; lia).
    replace (c =? q) with false by lia.
    rewrite IH by assumption. rewrite <- app_assoc. reflexivity.
Qed.

(** The contents of a bracket go to the buffer as they are, when they hold
    no backslash. *)
Lemma scan_content infield cl body :
  content cl body ->
  forall o b stk d k,
    BRACKETS o = Some cl -> ESCAPE_CHAR ∉ body ->
    scan infield (mkState b false false NO_QUOTE (stk ++ [cl]) d) (body ++ k)
      = scan infield (mkState (b ++ body) false false NO_QUOTE (stk ++ [cl]) d) k.
Proof.
  induction 1 as [cl | cl c l Hc Hq Hb _ IH | cl q body l Hq Hnq _ IH
                  | cl o' cl' body l Hb' _ IHbody _ IH];
    intros o b stk d k Ho Hne.
  - simpl. rewrite app_nil_r. reflexivity.
  - apply not_elem_of_cons in Hne as [Hce Hne].
    simpl. rewrite step_in_brackets by congruence.
    change (NO_QUOTE =? NO_QUOTE) with true. cbv iota.
    rewrite bool_decide_eq_false_2 by exact Hc. rewrite Hq, Hb.
    rewrite (IH o) by assumption. rewrite <- app_assoc. reflexivity.
  - destruct (closer_facts _ _ Ho) as (Hclq & _ & _).
    apply not_elem_of_cons in Hne as [Hqe Hne].
    apply not_elem_of_app in Hne as [Hne1 Hne2].
    apply not_elem_of_cons in Hne2 as [_ Hne2].
    simpl. rewrite step_in_brackets by congruence.
    change (NO_QUOTE =? NO_QUOTE) with true. cbv iota.
    rewrite bool_decide_eq_false_2 by congruence. rewrite Hq.
    rewrite <- app_assoc. rewrite scan_quoted_body by assumption.
    simpl. rewrite step_in_brackets by congruence.
    replace (q =? NO_QUOTE) with false
      by (apply quote_chars_spec in Hq; unfold NO_QUOTE; lia).
    rewrite Z.eqb_refl. rewrite (IH o) by assumption.
    f_equal. f_equal. rewrite <- !app_assoc. reflexivity.
  - destruct (closer_facts _ _ Ho) as (_ & _ & _ & _ & _ & _ & Hopen).
    destruct (closer_facts _ _ Hb') as (_ & _ & Hcle & Hoq & Hoe & _ & _).
    apply not_elem_of_cons in Hne as [_ Hne].
    apply not_elem_of_app in Hne as [Hne1 Hne2].
    apply not_elem_of_cons in Hne2 as [_ Hne2].
    simpl. rewrite step_in_brackets by congruence.
    change (NO_QUOTE =? NO_QUOTE) with true. cbv iota.
    rewrite bool_decide_eq_false_2 by (eapply Hopen; eauto).
    rewrite Hoq, Hb'. rewrite <- (app_assoc body).
    rewrite (IHbody o') by assumption.
    simpl. rewrite step_in_brackets by congruence.
    change (NO_QUOTE =? NO_QUOTE) with true. cbv iota.
    rewrite bool_decide_eq_true_2 by reflexivity.
    destruct (stk ++ [cl]) as [|x s'] eqn:Hstk; [destruct stk; discriminate|].
    rewrite <- Hstk. rewrite (IH o) by assumption.
    f_equal. f_equal. rewrite <- !app_assoc. reflexivity.
Qed.

Lemma step_open infield o cl :
  BRACKETS o = Some cl ->
  step infield init_state o = Continue (mkState [o] false false NO_QUOTE [cl] o).
Proof.
  intros H%brackets_spec.
  destruct H as [[-> ->] | [[-> ->] | [-> ->]]]; reflexivity.
Qed.

Lemma NextToken_bracketed infield o cl body rest :
  BRACKETS o = Some cl -> content cl body -> ESCAPE_CHAR ∉ body ->
  NextToken (mkScanner (o :: body ++ cl :: rest) infield)
    = (o :: body ++ [cl], o, None, mkScanner rest infield).
Proof.
  intros Ho Hc Hne.
  destruct (closer_facts _ _ Ho) as (_ & _ & Hcle & _).
  unfold NextToken. cbn [rd InfieldBrackets scan].
  rewrite (step_open _ _ _ Ho).
  change [cl] with ([] ++ [cl]) at 1.
  rewrite (scan_content infield cl body Hc o) by assumption.
  cbn [scan]. rewrite step_in_brackets by congruence.
  change (NO_QUOTE =? NO_QUOTE) with true. cbv iota.
  rewrite bool_decide_eq_true_2 by reflexivity. reflexivity.
Qed.

(** C5, as stated, fails when the bracketed text holds a backslash, with or
    without [InfieldBrackets]: the token lacks the backslash. *)
Lemma bracketed_escape_counterexample :
  bracketed json_region /\
  NextToken (mkScanner json_region false)
    = (json_region_unescaped, 123, None, mkScanner [] false) /\
  NextToken (mkScanner json_region true)
    = (json_region_unescaped, 123, None, mkScanner [] true) /\
  json_region_unescaped <> json_region.
Proof.
  assert (Hnin : forall (x : rune) l, negb (ContainsRune l x) = true -> x ∉ l).
  { intros x l H Hin. apply negb_true_iff in H.
    apply list_elem_of_In in Hin.
    assert (ContainsRune l x = true); [|congruence].
    apply existsb_exists. exists x. split; [exact Hin | apply Z.eqb_refl]. }
  split; [|vm_compute; repeat split; discriminate].
  apply (bracketed_intro 123 125
           (dquote :: runes "a\nb" ++ dquote :: runes ":[1]")); [reflexivity|].
  apply (content_quoted 125 dquote (runes "a\nb") (runes ":[1]"));
    [reflexivity | apply Hnin; reflexivity |].
  apply (content_char 125 58); [discriminate | reflexivity | reflexivity |].
  apply (content_nested 125 91 93 (runes "1") []); [reflexivity | | constructor].
  apply (content_char 93 49); [discriminate | reflexivity | reflexivity | constructor].
Qed.

(** C5, amended. For every line that begins with a bracketed text (an
    opening bracket, contents made of other characters, quoted strings and
    nested bracketed texts, and the matching closing bracket) that holds no
    backslash, [NextToken] returns the whole bracketed text, brackets
    included, as one token, whether [InfieldBrackets] is set or not; the
    delimiter is the opening bracket and the scanner is left after the
    closing one.  The bracketed text alone is a line of one token. *)
Theorem bracketed_preserved (infield : bool) (region rest : gostring) :
  bracketed region ->
  ESCAPE_CHAR ∉ region ->
  exists o,
    head region = Some o /\
    NextToken (mkScanner (region ++ rest) infield)
      = (region, o, None, mkScanner rest infield) /\
    GetArgs region infield = [region].
Proof.
  intros [o cl body Ho Hc] Hne.
  apply not_elem_of_cons in Hne as [_ Hne].
  apply not_elem_of_app in Hne as [Hne _].
  exists o. split; [reflexivity|].
  assert (Hnt : forall r, NextToken (mkScanner ((o :: body ++ [cl]) ++ r) infield)
                  = (o :: body ++ [cl], o, None, mkScanner r infield)).
  { intros r. simpl. rewrite <- app_assoc. simpl.
    apply NextToken_bracketed; assumption. }
  split; [apply Hnt|].
  eapply GetArgs_drains; [|apply NextToken_empty].
  econstructor; [|constructor].
  specialize (Hnt []). rewrite app_nil_r in Hnt. exact Hnt.
Qed.

Lemma bracketed_preserved_witness :
  exists o,
    head json_region_unescaped = Some o /\
    NextToken (mkScanner (json_region_unescaped ++ runes " x") true)
      = (json_region_unescaped, o, None, mkScanner (runes " x") true) /\
    GetArgs json_region_unescaped true = [json_region_unescaped].
Proof.
  apply (bracketed_preserved true json_region_unescaped (runes " x")).
  - apply (bracketed_intro 123 125
             (dquote :: runes "anb" ++ dquote :: runes ":[1]")); [reflexivity|].
    apply (content_quoted 125 dquote (runes "anb") (runes ":[1]"));
      [reflexivity | |].
    { intros Hin. apply list_elem_of_In in Hin. vm_compute in Hin.
      intuition discriminate. }
    apply (content_char 125 58); [discriminate | reflexivity | reflexivity |].
    apply (content_nested 125 91 93 (runes "1") []); [reflexivity | | constructor].
    apply (content_char 93 49);
      [discriminate | reflexivity | reflexivity | constructor].
  - intros Hin. apply list_elem_of_In in Hin. vm_compute in Hin.
    intuition discriminate.
Defined.

(** ** Lines without quotes, brackets and symbols *)

Lemma GetArgs_unfold line infield :
  GetArgs line infield =
    match scan infield init_state line with
    | (s, _, None, rest) => s :: GetArgs rest infield
    | (_, _, Some _, _) => []
    end.
Proof.
  destruct (getTokens_loop_all (S (length line)) 0 [] (mkScanner line infield))
    as (toks & sc' & Hd & He & _); [simpl; lia|].
  rewrite (GetArgs_drains _ _ _ _ _ _ _ _ Hd He).
  assert (Hnt0 : NextToken (mkScanner line infield) =
            let '(s, d, err, rest) := scan infield init_state line in
            (s, d, err, mkScanner rest infield)) by reflexivity.
  destruct (scan infield init_state line) as [[[s d] [e|]] rest].
  - inversion Hd as [sc|sc tok d' sc1 toks' sc2 Hnt Hd']; subst;
      [reflexivity | congruence].
  - inversion Hd as [sc|sc tok d' sc1 toks' sc2 Hnt Hd']; subst; [congruence|].
    rewrite Hnt0 in Hnt. injection Hnt as <- _ <-. f_equal. symmetry.
    eapply GetArgs_drains; eauto.
Qed.

Lemma plain_facts c :
  plain c = true ->
  ContainsRune QUOTE_CHARS c = false /\ BRACKETS c = None /\
  ContainsRune SYMBOL_CHARS c = false /\ (c =? NO_QUOTE) = false.
Proof.
  unfold plain, no_special. rewrite !andb_true_iff, !negb_true_iff.
  intros [[[Hq Hb] Hs] Hn]. repeat split; auto.
  apply brackets_none. unfold is_bracket, ContainsRune in Hb. simpl in Hb.
  rewrite !orb_false_iff in Hb. lia.
Qed.

(** The loop body on a plain character, with no quote and no bracket open. *)
Lemma step_plain infield b f e d c :
  plain c = true ->
  step infield (mkState b f e NO_QUOTE [] d) c =
    if (c =? ESCAPE_CHAR) && negb e then
      Continue (mkState b false true NO_QUOTE [] d)
    else if e then Continue (mkState (b ++ [c]) f false NO_QUOTE [] d)
    else if IsSpace c then
      if f then Continue (mkState b f e NO_QUOTE [] d) else Return b c
    else Continue (mkState (b ++ [c]) false e NO_QUOTE [] d).
Proof.
  intros (Hq & Hb & Hs & Hn)%plain_facts.
  unfold step, step_scan. cbn [buf first escape quote brackets delim].
  rewrite Hq, Hb, Hs, Hn.
  change (NO_QUOTE =? NO_QUOTE) with true. rewrite andb_true_r.
  destruct ((c =? ESCAPE_CHAR) && negb e), e, f, (IsSpace c), infield;
    reflexivity.
Qed.

Lemma scan_plain infield l :
  forallb plain l = true ->
  forall b f e d,
    (f = true -> b = [] /\ e = false) ->
    (f = false -> e = false -> b <> []) ->
    match scan infield (mkState b f e NO_QUOTE [] d) l with
    | (s, _, None, rest) => s :: GetArgs rest infield
    | (_, _, Some _, _) => []
    end = fields b (unescape_from e l).
Proof.
  induction l as [|c l IH]; intros Hl b f e d Hf Hb.
  - simpl. destruct b as [|x b]; destruct e; reflexivity.
  - simpl in Hl. apply andb_true_iff in Hl as [Hc Hl].
    cbn [scan]. rewrite (step_plain _ _ _ _ _ _ Hc).
    destruct (Z.eqb_spec c ESCAPE_CHAR) as [->|Hce]; destruct e; simpl.
    + (* an escaped backslash *)
      destruct f; [destruct Hf as [_ [=]]; reflexivity|].
      rewrite IH; auto; try discriminate.
      intros _ _ Hnil. apply app_eq_nil in Hnil as [_ [=]].
    + (* a backslash *)
      rewrite IH; auto; try discriminate.
    + (* an escaped character *)
      destruct f; [destruct Hf as [_ [=]]; reflexivity|].
      rewrite IH; auto; try discriminate.
      intros _ _ Hnil. apply app_eq_nil in Hnil as [_ [=]].
    + replace (c =? ESCAPE_CHAR) with false by lia.
      cbn [fields separator item_rune].
      destruct (IsSpace c) eqn:Hsp.
      * destruct f.
        -- destruct Hf as [-> _]; [reflexivity|]. rewrite IH; auto.
        -- destruct b as [|x b]; [exfalso; apply Hb; reflexivity|].
           f_equal. rewrite GetArgs_unfold. apply (IH Hl [] true false 0); auto.
      * rewrite IH; auto; try discriminate.
        intros _ _ Hnil. apply app_eq_nil in Hnil as [_ [=]].
Qed.

(** X19. For every line with no quote, bracket or symbol character and without
    U+FFFD, the tokens are the fields of the line split on white space, a
    character after an unescaped backslash being literal and the backslash
    dropped. *)
Theorem GetArgs_plain (line : gostring) (infield : bool) :
  forallb plain line = true ->
  GetArgs line infield = split_escaped line.
Proof.
  intros Hl. rewrite GetArgs_unfold.
  apply (scan_plain infield line Hl [] true false 0); auto.
Qed.

Lemma GetArgs_plain_witness :
  GetArgs (runes " arg\ with\ spaces  one\\two ") false
    = [runes "arg with spaces"; runes "one\two"].
Proof.
  rewrite (GetArgs_plain (runes " arg\ with\ spaces  one\\two ") false);
    reflexivity.
Defined.

(** C3 at a line with U+FFFD: that character has none of the excluded
    kinds, and splitting on white space gives one field, but the scanner
    takes it for the closing of a quote and returns two tokens. *)
Theorem replacement_char_splits (infield : bool) :
  forallb no_special a_replacement_b = true /\
  split_escaped a_replacement_b = [a_replacement_b] /\
  GetArgs a_replacement_b infield = [[97]; [98]] /\
  NextToken (mkScanner a_replacement_b infield)
    = ([97], NO_QUOTE, None, mkScanner [98] infield).
Proof. destruct infield; vm_compute; auto. Qed.

(** * Further properties *)

(** ** What [NextToken] reads and returns *)

Lemma step_buf infield st c :
  match step infield st c with
  | Continue st' => buf st' = buf st \/ buf st' = buf st ++ [c]
  | Return s _ => s = buf st \/ s = buf st ++ [c]
  | ReturnRest b _ => b = buf st ++ [c]
  end.
Proof.
  destruct (step infield st c) as [st' | s d | b d] eqn:Hs; revert Hs;
    unfold step, step_scan; repeat case_match; intros Heq;
    inversion Heq; subst; simpl; auto.
Qed.

Lemma scan_sublist infield l : forall st s d e rest,
  scan infield st l = (s, d, e, rest) ->
  exists consumed t,
    l = consumed ++ rest /\ t `sublist_of` consumed /\
    (e = None -> s = buf st ++ t).
Proof.
  induction l as [|c l IH]; intros st s d e rest; simpl.
  - destruct (0 <? Z.of_nat (length (buf st))); intros Heq; inversion Heq;
      subst; exists [], []; repeat split; auto;
      [intros _; rewrite app_nil_r; reflexivity | discriminate].
  - pose proof (step_buf infield st c) as Hb.
    destruct (step infield st c) as [st' | s0 d0 | b d0] eqn:Hs.
    + intros Hscan. apply IH in Hscan as (consumed & t & -> & Hsub & Ht).
      destruct Hb as [Hb | Hb]; rewrite Hb in Ht.
      * exists (c :: consumed), t. repeat split; auto.
        apply sublist_cons. exact Hsub.
      * exists (c :: consumed), (c :: t). repeat split.
        -- apply sublist_skip. exact Hsub.
        -- intros He. rewrite (Ht He), <- app_assoc. reflexivity.
    + intros [= <- <- <- <-]. destruct Hb as [-> | ->].
      * exists [c], []. split; [reflexivity|].
        split; [apply sublist_nil_l | intros _; rewrite app_nil_r; reflexivity].
      * exists [c], [c]. repeat split; auto.
    + intros [= <- <- <- <-]. subst b.
      exists (c :: l), (c :: l). rewrite app_nil_r, <- app_assoc.
      repeat split; auto.
Qed.

(** X1. [NextToken] invents nothing and loses no input: what it leaves to
    read is a suffix of what there was, and the token is made of characters
    of the part it has read, in their order. *)
Theorem NextToken_reads_prefix (sc : Scanner) :
  exists consumed,
    rd sc = consumed ++ rd (NextToken sc).2 /\
    (NextToken sc).1.1.1 `sublist_of` consumed /\
    InfieldBrackets (NextToken sc).2 = InfieldBrackets sc.
Proof.
  unfold NextToken.
  destruct (scan (InfieldBrackets sc) init_state (rd sc))
    as [[[s d] e] rest] eqn:Hs.
  pose proof (scan_result (InfieldBrackets sc) (rd sc) _ init_inv) as Hr.
  rewrite Hs in Hr.
  apply scan_sublist in Hs as (consumed & t & Hl & Hsub & Ht).
  exists consumed. simpl. repeat split; auto.
  destruct e as [e|].
  - destruct Hr as (-> & _). apply sublist_nil_l.
  - rewrite (Ht eq_refl). exact Hsub.
Qed.

Lemma scan_suffix infield st l s d e rest :
  scan infield st l = (s, d, e, rest) -> rest `suffix_of` l.
Proof.
  intros (consumed & _ & -> & _)%scan_sublist. apply suffix_app_r. reflexivity.
Qed.

(** ** [InfieldBrackets] without brackets *)

Lemma step_no_opener st c :
  no_opener c = true -> step true st c = step false st c.
Proof.
  unfold no_opener, step, step_scan. destruct (BRACKETS c); [discriminate|].
  reflexivity.
Qed.

Lemma scan_no_opener l : forall st,
  forallb no_opener l = true -> scan true st l = scan false st l.
Proof.
  induction l as [|c l IH]; intros st Hl; [reflexivity|].
  simpl in Hl. apply andb_true_iff in Hl as [Hc Hl].
  simpl. rewrite (step_no_opener _ _ Hc).
  destruct (step false st c); auto.
Qed.

Lemma forallb_suffix {A} (f : A -> bool) (l1 l2 : list A) :
  l1 `suffix_of` l2 -> forallb f l2 = true -> forallb f l1 = true.
Proof.
  intros [k ->]. rewrite forallb_app. intros [_ H]%andb_true_iff. exact H.
Qed.

(** X2. On a line without an opening bracket the option [InfieldBrackets]
    changes nothing: the tokens are the same with and without it. *)
Theorem InfieldBrackets_without_brackets (line : gostring) :
  forallb no_opener line = true ->
  GetArgs line true = GetArgs line false.
Proof.
  remember (length line) as n eqn:Hn. revert line Hn.
  induction (lt_wf n) as [n _ IH]. intros line -> Hl.
  rewrite (GetArgs_unfold line true), (GetArgs_unfold line false).
  rewrite (scan_no_opener _ _ Hl).
  destruct (scan false init_state line) as [[[s d] [e|]] rest] eqn:Hs;
    [reflexivity|].
  f_equal.
  pose proof (scan_result false line _ init_inv) as Hr. rewrite Hs in Hr.
  destruct Hr as (_ & _ & Hlt).
  destruct line as [|c line]; [discriminate Hs|].
  apply (IH (length rest)); [apply Hlt; discriminate | reflexivity |].
  eapply forallb_suffix; [eapply scan_suffix; eauto | exact Hl].
Qed.

Lemma InfieldBrackets_without_brackets_witness :
  GetArgs (runes "x=1 'a b' c)") true = GetArgs (runes "x=1 'a b' c)") false.
Proof.
  apply (InfieldBrackets_without_brackets (runes "x=1 'a b' c)")). reflexivity.
Defined.

(** ** White space before the tokens, and blank lines *)

Lemma skip_to_option_spaces ws l :
  forallb IsSpace ws = true ->
  skip_to_option (ws ++ l) = skip_to_option l.
Proof.
  induction ws as [|c ws IH]; [reflexivity|].
  simpl. intros [Hc Hws]%andb_true_iff. rewrite Hc. simpl.
  destruct (Z.eqb_spec c OPTION_CHAR) as [->|]; [discriminate Hc | auto].
Qed.

(** Where the skipping of spaces in option mode stops. *)
Lemma skip_to_option_spec input :
  match skip_to_option input with
  | AtEOF => forallb IsSpace input = true
  | AtOption input' =>
      exists ws l, input = ws ++ input' /\ forallb IsSpace ws = true /\
                   input' = OPTION_CHAR :: l
  | AtOther input' =>
      exists ws c l, input = ws ++ input' /\ forallb IsSpace ws = true /\
                     input' = c :: l /\ c <> OPTION_CHAR /\ IsSpace c = false
  end.
Proof.
  induction input as [|c input IH]; simpl; [reflexivity|].
  destruct (Z.eqb_spec c OPTION_CHAR) as [->|Hne].
  - exists [], input. auto.
  - destruct (IsSpace c) eqn:Hc; simpl.
    + destruct (skip_to_option input) as [|input'|input'].
      * exact IH.
      * destruct IH as (ws & l & -> & Hws & ->).
        exists (c :: ws), l. simpl. rewrite Hc. auto.
      * destruct IH as (ws & c' & l & -> & Hws & -> & ? & ?).
        exists (c :: ws), c', l. simpl. rewrite Hc. auto.
    + exists [], c, input. auto.
Qed.

Lemma getTokens_blank line infield max :
  forallb IsSpace line = true ->
  exists e sc', getTokens (mkScanner line infield) max = Some ([], [], e, sc').
Proof.
  intros Hl. unfold getTokens. simpl.
  assert (Hs : scan infield init_state line = ([], 0, Some EOF, [])).
  { rewrite <- (app_nil_r line). rewrite scan_leading_spaces by exact Hl.
    reflexivity. }
  assert (Hk : skip_to_option line = AtEOF).
  { rewrite <- (app_nil_r line). rewrite skip_to_option_spaces by exact Hl.
    reflexivity. }
  unfold NextToken. simpl. rewrite Hs, Hk.
  replace ((max <=? 0) || (0 <? max)) with true by lia.
  destruct (max <? 0); eauto.
Qed.

Lemma GetArgs_blank line infield :
  forallb IsSpace line = true -> GetArgs line infield = [].
Proof.
  intros Hl. unfold GetArgs, GetTokensN, getScanner.
  destruct (getTokens_blank line infield 0 Hl) as (e & sc' & ->). reflexivity.
Qed.

Lemma GetArgs_skip_spaces ws line infield :
  forallb IsSpace ws = true ->
  GetArgs (ws ++ line) infield = GetArgs line infield.
Proof.
  intros Hws. rewrite (GetArgs_unfold (ws ++ line)), (GetArgs_unfold line).
  rewrite scan_leading_spaces by exact Hws. reflexivity.
Qed.

(** X3. A line of white space only (the empty line included) has no token:
    [GetArgs] and [GetArgsN], whatever the bound, return the empty list,
    [GetOptions] returns no option and an empty remainder, and [ParseArgs]
    returns no option and no argument. *)
Theorem blank_line (line : gostring) (infield : bool) (n : Z) :
  forallb IsSpace line = true ->
  GetArgs line infield = [] /\
  GetArgsN line n infield = [] /\
  GetOptions line infield = ([], []) /\
  ParseArgs line = mkArgs ∅ [].
Proof.
  intros Hl.
  assert (Hg : forall i, GetArgs line i = [])
    by (intros i; apply GetArgs_blank; exact Hl).
  repeat split.
  - apply Hg.
  - unfold GetArgsN, GetTokensN, getScanner.
    destruct (getTokens_blank line infield (if 0 <? n then n - 1 else n) Hl)
      as (e & sc' & ->). reflexivity.
  - unfold GetOptions, GetOptionTokens, getScanner.
    destruct (getTokens_blank line infield (-1) Hl) as (e & sc' & ->).
    reflexivity.
  - unfold ParseArgs. rewrite Hg. reflexivity.
Qed.

Lemma blank_line_witness :
  GetArgs (runes "   ") true = [] /\
  GetArgsN (runes "   ") 2 true = [] /\
  GetOptions (runes "   ") true = ([], []) /\
  ParseArgs (runes "   ") = mkArgs ∅ [].
Proof. apply (blank_line (runes "   ") true 2). reflexivity. Defined.

(** X4. White space at the beginning of a line is skipped: the tokens of the
    line are those of the line without it. *)
Theorem leading_spaces_ignored (ws line : gostring) (infield : bool) :
  forallb IsSpace ws = true ->
  GetArgs (ws ++ line) infield = GetArgs line infield /\
  NextToken (mkScanner (ws ++ line) infield) = NextToken (mkScanner line infield).
Proof.
  intros Hws. split.
  - apply GetArgs_skip_spaces. exact Hws.
  - unfold NextToken. simpl. rewrite scan_leading_spaces by exact Hws.
    reflexivity.
Qed.

Lemma leading_spaces_ignored_witness :
  GetArgs (runes "  a b") false = GetArgs (runes "a b") false /\
  NextToken (mkScanner (runes "  a b") false)
    = NextToken (mkScanner (runes "a b") false).
Proof.
  apply (leading_spaces_ignored (runes "  ") (runes "a b") false). reflexivity.
Defined.

(** ** Option mode *)

(** More fuel than the loop needs changes nothing. *)
Lemma getTokens_loop_fuel fuel : forall fuel' max i tokens sc,
  (length (rd sc) < fuel)%nat -> (length (rd sc) < fuel')%nat ->
  getTokens_loop fuel max i tokens sc = getTokens_loop fuel' max i tokens sc.
Proof.
  induction fuel as [|fuel IH]; intros fuel' max i tokens sc H1 H2; [lia|].
  destruct fuel' as [|fuel']; [lia|]. simpl.
  assert (Hnext : forall sc0, (length (rd sc0) <= length (rd sc))%nat ->
    match NextToken sc0 with
    | (_, _, Some err, sc') => Some (tokens, [], Some err, sc')
    | (tok, _, None, sc') => getTokens_loop fuel max (i + 1) (tokens ++ [tok]) sc'
    end =
    match NextToken sc0 with
    | (_, _, Some err, sc') => Some (tokens, [], Some err, sc')
    | (tok, _, None, sc') => getTokens_loop fuel' max (i + 1) (tokens ++ [tok]) sc'
    end).
  { intros sc0 Hle. pose proof (NextToken_result sc0) as H.
    destruct (NextToken sc0) as [[[s d] [e|]] sc']; [reflexivity|].
    destruct H as (_ & Hlt & _). apply IH; lia. }
  destruct ((max <=? 0) || (i <? max)); [|reflexivity].
  destruct (max <? 0); [|apply Hnext; lia].
  destruct (skip_to_option (rd sc)) as [|input|input] eqn:Hskip; auto.
  apply Hnext. simpl. eapply skip_to_option_length; eauto.
Qed.

(** In option mode the tokens found so far are only passed on, and the
    bound and the counter play no part. *)
Lemma getTokens_loop_options fuel : forall max max' i i' tokens sc,
  max < 0 -> max' < 0 ->
  getTokens_loop fuel max i tokens sc =
    match getTokens_loop fuel max' i' [] sc with
    | Some (toks, r, e, s) => Some (tokens ++ toks, r, e, s)
    | None => None
    end.
Proof.
  induction fuel as [|fuel IH]; intros max max' i i' tokens sc Hm Hm';
    [reflexivity|].
  simpl. replace (max <=? 0) with true by lia.
  replace (max' <=? 0) with true by lia.
  replace (max <? 0) with true by lia. replace (max' <? 0) with true by lia.
  simpl.
  assert (Hnext : forall sc0,
    match NextToken sc0 with
    | (_, _, Some err, sc') => Some (tokens, [], Some err, sc')
    | (tok, _, None, sc') => getTokens_loop fuel max (i + 1) (tokens ++ [tok]) sc'
    end =
    match
      match NextToken sc0 with
      | (_, _, Some err, sc') => Some ([], [], Some err, sc')
      | (tok, _, None, sc') => getTokens_loop fuel max' (i' + 1) ([] ++ [tok]) sc'
      end
    with
    | Some (toks, r, e, s) => Some (tokens ++ toks, r, e, s)
    | None => None
    end).
  { intros sc0. destruct (NextToken sc0) as [[[s d] [e|]] sc'].
    - rewrite app_nil_r. reflexivity.
    - rewrite (IH max max' (i + 1) (i' + 1) (tokens ++ [s]) sc' Hm Hm').
      rewrite (IH max' max' (i' + 1) (i' + 1) ([] ++ [s]) sc' Hm' Hm').
      destruct (getTokens_loop fuel max' (i' + 1) [] sc')
        as [[[[toks r] e] s']|]; [|reflexivity].
      simpl. rewrite <- app_assoc. reflexivity. }
  destruct (skip_to_option (rd sc)) as [|input|input];
    [rewrite app_nil_r; reflexivity | apply Hnext | rewrite app_nil_r; reflexivity].
Qed.

Lemma GetOptions_unfold line infield :
  GetOptions line infield =
    match skip_to_option line with
    | AtEOF => ([], [])
    | AtOther input => ([], input)
    | AtOption input =>
        match scan infield init_state input with
        | (tok, _, None, rest) =>
            (tok :: (GetOptions rest infield).1, (GetOptions rest infield).2)
        | (_, _, Some _, _) => ([], [])
        end
    end.
Proof.
  unfold GetOptions at 1. unfold GetOptionTokens, getTokens, getScanner.
  cbn [rd getTokens_loop]. change (-1 <=? 0) with true.
  change (-1 <? 0) with true. cbn [orb InfieldBrackets].
  destruct (skip_to_option line) as [|input|input] eqn:Hskip; try reflexivity.
  unfold NextToken. cbn [rd InfieldBrackets].
  pose proof (scan_result infield input _ init_inv) as Hr.
  destruct (scan infield init_state input) as [[[tok d] [e|]] rest];
    [reflexivity|].
  destruct Hr as (_ & Hle & Hlt).
  apply skip_to_option_length in Hskip as Hlen.
  assert (Hrest : (length rest < length line)%nat).
  { pose proof (skip_to_option_spec line) as Hsp. rewrite Hskip in Hsp.
    destruct Hsp as (ws & l & _ & _ & ->).
    specialize (Hlt ltac:(discriminate)). lia. }
  rewrite (getTokens_loop_options _ (-1) (-1) _ 0 _ _) by lia.
  rewrite (getTokens_loop_fuel (length line) (S (length rest)))
    by (simpl; lia).
  unfold GetOptions, GetOptionTokens, getTokens, getScanner. cbn [rd].
  destruct (getTokens_loop (S (length rest)) (-1) 0 [] _)
    as [[[[toks r] e] s']|] eqn:Hg; [reflexivity|].
  destruct (getTokens_loop_total (S (length rest)) (-1) 0 []
              (mkScanner rest infield)) as [x Hx]; [simpl; lia|].
  congruence.
Qed.

Lemma scan_keeps_head infield l : forall st x s d e rest,
  head (buf st) = Some x ->
  scan infield st l = (s, d, e, rest) ->
  e = None /\ head s = Some x.
Proof.
  assert (Hhead : forall (b : gostring) x k, head b = Some x ->
                    head (b ++ k) = Some x).
  { intros [|a b] x k; simpl; [discriminate | auto]. }
  induction l as [|c l IH]; intros st x s d e rest Hx; simpl.
  - destruct (buf st) as [|a b] eqn:Hb; [discriminate|]. simpl.
    intros [= <- <- <- <-]. auto.
  - pose proof (step_buf infield st c) as Hb.
    destruct (step infield st c) as [st' | s0 d0 | b d0].
    + apply IH. destruct Hb as [-> | ->]; auto.
    + intros [= <- <- <- <-]. destruct Hb as [-> | ->]; auto.
    + intros [= <- <- <- <-]. subst b. rewrite <- app_assoc. auto.
Qed.

Lemma scan_option infield l :
  exists tok d rest,
    scan infield init_state (OPTION_CHAR :: l) = (tok, d, None, rest) /\
    head tok = Some OPTION_CHAR.
Proof.
  destruct (scan infield init_state (OPTION_CHAR :: l))
    as [[[tok d] e] rest] eqn:Hs.
  assert (Hs' : scan infield (mkState [OPTION_CHAR] false false NO_QUOTE [] 0) l
                = (tok, d, e, rest)).
  { rewrite <- Hs. destruct infield; reflexivity. }
  apply scan_keeps_head with (x := OPTION_CHAR) in Hs' as [-> Hh];
    [|reflexivity].
  eauto.
Qed.

(** X5. What [GetOptions] returns.  Every option token begins with a dash;
    the remainder is a suffix of the line, taken as it is, and is either
    empty or begins with a character that is neither a space nor a dash. *)
Theorem GetOptions_shape (line : gostring) (infield : bool) :
  Forall (fun tok => head tok = Some OPTION_CHAR) (GetOptions line infield).1 /\
  (GetOptions line infield).2 `suffix_of` line /\
  match (GetOptions line infield).2 with
  | [] => True
  | c :: _ => c <> OPTION_CHAR /\ IsSpace c = false
  end.
Proof.
  remember (length line) as n eqn:Hn. revert line Hn.
  induction (lt_wf n) as [n _ IH]. intros line ->.
  rewrite GetOptions_unfold.
  pose proof (skip_to_option_spec line) as Hsp.
  destruct (skip_to_option line) as [|input|input].
  - simpl. repeat split; [constructor | apply suffix_nil].
  - destruct Hsp as (ws & l & -> & Hws & ->).
    destruct (scan_option infield l) as (tok & d & rest & Hs & Hh).
    rewrite Hs.
    pose proof (scan_result infield (OPTION_CHAR :: l) _ init_inv) as Hr.
    rewrite Hs in Hr. destruct Hr as (_ & _ & Hlt).
    specialize (Hlt ltac:(discriminate)).
    destruct (IH (length rest)) with (line := rest) as (Hall & Hsuf & Hrem);
      [rewrite length_app; lia | reflexivity |].
    cbn [fst snd]. repeat split; [constructor; assumption | | exact Hrem].
    etrans; [exact Hsuf|]. etrans; [eapply scan_suffix; eauto|].
    apply suffix_app_r. reflexivity.
  - destruct Hsp as (ws & c & l & -> & Hws & -> & Hc & Hsp).
    simpl. repeat split; [constructor | apply suffix_app_r; reflexivity | |];
      assumption.
Qed.

(** X6. The tokens of a line are its option tokens followed by the tokens
    of the remainder: [GetOptions] cuts the line of [GetArgs] in two. *)
Theorem GetArgs_GetOptions (line : gostring) (infield : bool) :
  GetArgs line infield =
    (GetOptions line infield).1 ++ GetArgs (GetOptions line infield).2 infield.
Proof.
  remember (length line) as n eqn:Hn. revert line Hn.
  induction (lt_wf n) as [n _ IH]. intros line ->.
  rewrite GetOptions_unfold.
  pose proof (skip_to_option_spec line) as Hsp.
  destruct (skip_to_option line) as [|input|input].
  - simpl. apply GetArgs_blank. exact Hsp.
  - destruct Hsp as (ws & l & -> & Hws & ->).
    rewrite (GetArgs_skip_spaces ws _ infield Hws).
    rewrite GetArgs_unfold.
    pose proof (scan_result infield (OPTION_CHAR :: l) _ init_inv) as Hr.
    destruct (scan infield init_state (OPTION_CHAR :: l))
      as [[[tok d] [e|]] rest]; [reflexivity|].
    destruct Hr as (_ & _ & Hlt). specialize (Hlt ltac:(discriminate)).
    cbn [fst snd]. simpl. f_equal.
    apply (IH (length rest)); [rewrite length_app; lia | reflexivity].
  - destruct Hsp as (ws & c & l & -> & Hws & -> & _).
    simpl. apply GetArgs_skip_spaces. exact Hws.
Qed.

(** X7. When the first character of a line that is not a space is not a
    dash, [GetOptions] returns no option, and the remainder is the line from
    that character on, as it is (white space at the end included). *)
Theorem GetOptions_no_option (ws : gostring) (c : rune) (rest : gostring)
    (infield : bool) :
  forallb IsSpace ws = true ->
  IsSpace c = false ->
  c <> OPTION_CHAR ->
  GetOptions (ws ++ c :: rest) infield = ([], c :: rest).
Proof.
  intros Hws Hc Hne. rewrite GetOptions_unfold.
  rewrite skip_to_option_spaces by exact Hws. simpl.
  replace (c =? OPTION_CHAR) with false by lia. rewrite Hc. reflexivity.
Qed.

Lemma GetOptions_no_option_witness :
  GetOptions (runes "  one -l two  ") false = ([], runes "one -l two  ").
Proof.
  apply (GetOptions_no_option (runes "  ") 111 (runes "ne -l two  ") false);
    [reflexivity | reflexivity | discriminate].
Defined.

(** X8. [GetArgsN] with a bound that is not positive: with 0 it returns all
    the tokens, as [GetArgs]; with a negative bound it returns the option
    tokens of [GetOptions], followed by the remainder when this is not
    empty. *)
Theorem GetArgsN_not_positive (line : gostring) (n : Z) (infield : bool) :
  n <= 0 ->
  GetArgsN line n infield =
    if n =? 0 then GetArgs line infield
    else (GetOptions line infield).1 ++ remainder (GetOptions line infield).2.
Proof.
  intros Hn. unfold GetArgsN. replace (0 <? n) with false by lia.
  destruct (Z.eqb_spec n 0) as [->|Hne].
  - unfold GetArgs, GetTokensN, getTokens.
    destruct (getTokens_loop_all (S (length (rd (getScanner line infield))))
                0 [] (getScanner line infield))
      as (toks & sc' & _ & _ & -> & _); [lia|]. reflexivity.
  - unfold GetOptions, GetOptionTokens, GetTokensN, getTokens.
    rewrite (getTokens_loop_options _ n (-1) 0 0) by lia.
    destruct (getTokens_loop _ (-1) 0 [] _) as [[[[toks r] e] s']|];
      [|reflexivity].
    unfold remainder. simpl.
    destruct (bool_decide (r <> [])); [reflexivity | rewrite app_nil_r; reflexivity].
Qed.

Lemma GetArgsN_not_positive_witness :
  GetArgsN (runes "-a -b c d") (-3) false
    = [runes "-a"; runes "-b"; runes "c d"].
Proof.
  rewrite (GetArgsN_not_positive (runes "-a -b c d") (-3) false); [|lia].
  vm_compute. reflexivity.
Defined.

(** ** Words, quoted tokens and brackets in [NextToken] *)

Lemma ContainsRune_cons c l x :
  ContainsRune (c :: l) x = (x =? c) || ContainsRune l x.
Proof. reflexivity. Qed.

Lemma scan_in_quote infield q d k body : forall b,
  ContainsRune QUOTE_CHARS q = true ->
  ContainsRune body q = false ->
  ContainsRune body ESCAPE_CHAR = false ->
  (infield = true -> forallb no_opener body = true) ->
  scan infield (mkState b false false q [] d) (body ++ k)
    = scan infield (mkState (b ++ body) false false q [] d) k.
Proof.
  intros b Hq. revert b.
  assert (Hqn : (q =? NO_QUOTE) = false)
    by (apply quote_chars_spec in Hq; unfold NO_QUOTE; lia).
  induction body as [|c body IH]; intros b Hnq Hne Hop; simpl.
  - rewrite app_nil_r. reflexivity.
  - rewrite ContainsRune_cons in Hnq, Hne.
    apply orb_false_iff in Hnq as [Hcq Hnq].
    apply orb_false_iff in Hne as [Hce Hne].
    assert (Hstep : step infield (mkState b false false q [] d) c
                    = Continue (mkState (b ++ [c]) false false q [] d)).
    { unfold step, step_scan. cbn [buf first escape quote brackets delim].
      replace (c =? ESCAPE_CHAR) with false by lia.
      replace (c =? q) with false by lia. rewrite Hqn, andb_false_r.
      destruct infield; [|reflexivity].
      specialize (Hop eq_refl). simpl in Hop.
      apply andb_true_iff in Hop as [Hc _]. unfold no_opener in Hc.
      destruct (BRACKETS c); [discriminate | reflexivity]. }
    rewrite Hstep, IH; auto.
    + rewrite <- app_assoc. reflexivity.
    + intros Hi. specialize (Hop Hi). simpl in Hop.
      apply andb_true_iff in Hop as [_ Hop]. exact Hop.
Qed.

Lemma step_open_quote infield q :
  ContainsRune QUOTE_CHARS q = true ->
  step infield init_state q = Continue (mkState [] false false q [] 0).
Proof.
  intros Hq%quote_chars_spec. destruct Hq as [-> | [-> | ->]]; reflexivity.
Qed.

(** X9. A quoted token.  After any white space, a quote character, a body
    without that quote character and without backslash, and the same quote
    character again give the body as the token, without the quotes and with
    its spaces, and the quote as delimiter; the scanner is left after the
    closing quote.  With [InfieldBrackets] this needs a body without opening
    bracket. *)
Theorem quoted_token (infield : bool) (ws : gostring) (q : rune)
    (body rest : gostring) :
  forallb IsSpace ws = true ->
  ContainsRune QUOTE_CHARS q = true ->
  ContainsRune body q = false ->
  ContainsRune body ESCAPE_CHAR = false ->
  (infield = true -> forallb no_opener body = true) ->
  NextToken (mkScanner (ws ++ q :: body ++ q :: rest) infield)
    = (body, q, None, mkScanner rest infield).
Proof.
  intros Hws Hq Hnq Hne Hop.
  unfold NextToken. cbn [rd InfieldBrackets].
  rewrite scan_leading_spaces by exact Hws. cbn [scan].
  rewrite (step_open_quote _ _ Hq).
  rewrite scan_in_quote by assumption. cbn [scan app].
  unfold step, step_scan. cbn [buf first escape quote brackets delim].
  replace (q =? ESCAPE_CHAR) with false
    by (apply quote_chars_spec in Hq; unfold ESCAPE_CHAR; lia).
  replace (q =? NO_QUOTE) with false
    by (apply quote_chars_spec in Hq; unfold NO_QUOTE; lia).
  rewrite andb_false_r, Z.eqb_refl. reflexivity.
Qed.

Lemma quoted_token_witness :
  NextToken (mkScanner (runes " 'a  (b' c") false)
    = (runes "a  (b", 39, None, mkScanner (runes " c") false).
Proof.
  apply (quoted_token false (runes " ") 39 (runes "a  (b") (runes " c"));
    try reflexivity.
  discriminate.
Defined.

(** X10. A quote that is never closed.  After any white space and a quote
    character, when the input ends after a body without that quote
    character and without backslash (and, with [InfieldBrackets], without
    opening bracket), the body is returned as the token, with a nil error
    and the delimiter 0; when the body is empty, that is when nothing
    follows the quote, the call signals the end of the stream and returns no
    token. *)
Theorem unterminated_quote (infield : bool) (ws : gostring) (q : rune)
    (body : gostring) :
  forallb IsSpace ws = true ->
  ContainsRune QUOTE_CHARS q = true ->
  ContainsRune body q = false ->
  ContainsRune body ESCAPE_CHAR = false ->
  (infield = true -> forallb no_opener body = true) ->
  NextToken (mkScanner (ws ++ q :: body) infield)
    = match body with
      | [] => ([], 0, Some EOF, mkScanner [] infield)
      | _ :: _ => (body, 0, None, mkScanner [] infield)
      end.
Proof.
  intros Hws Hq Hnq Hne Hop.
  unfold NextToken. cbn [rd InfieldBrackets].
  rewrite scan_leading_spaces by exact Hws. cbn [scan].
  rewrite (step_open_quote _ _ Hq).
  rewrite <- (app_nil_r body) at 1.
  rewrite scan_in_quote by assumption.
  destruct body; reflexivity.
Qed.

Lemma unterminated_quote_witness :
  NextToken (mkScanner (runes "'a b") true)
    = (runes "a b", 0, None, mkScanner [] true).
Proof.
  apply (unterminated_quote true [] 39 (runes "a b")); reflexivity.
Defined.

Lemma word_char_facts c :
  word_char c = true ->
  IsSpace c = false /\ (c =? ESCAPE_CHAR) = false /\ (c =? NO_QUOTE) = false.
Proof.
  unfold word_char. rewrite !andb_true_iff, !negb_true_iff. tauto.
Qed.

Lemma step_word_start infield c :
  word_start c = true ->
  step infield init_state c = Continue (mkState [c] false false NO_QUOTE [] 0).
Proof.
  unfold word_start. rewrite !andb_true_iff, !negb_true_iff.
  intros [[[(Hs & He & Hn)%word_char_facts Hq] Hb] Hy].
  unfold no_opener in Hb. destruct (BRACKETS c) eqn:Hbc; [discriminate|].
  unfold step, step_scan. cbn [buf first escape quote brackets delim init_state].
  rewrite He, Hs, Hq, Hbc, Hy, Hn. destruct infield; reflexivity.
Qed.

Lemma scan_word infield d k pre : forall b,
  forallb word_char pre = true ->
  (infield = true -> forallb no_opener pre = true) ->
  scan infield (mkState b false false NO_QUOTE [] d) (pre ++ k)
    = scan infield (mkState (b ++ pre) false false NO_QUOTE [] d) k.
Proof.
  induction pre as [|c pre IH]; intros b Hw Hop; simpl.
  - rewrite app_nil_r. reflexivity.
  - simpl in Hw. apply andb_true_iff in Hw as [Hc Hw].
    apply word_char_facts in Hc as (Hs & He & Hn).
    assert (Hstep : step infield (mkState b false false NO_QUOTE [] d) c
                    = Continue (mkState (b ++ [c]) false false NO_QUOTE [] d)).
    { unfold step, step_scan. cbn [buf first escape quote brackets delim].
      rewrite He, Hs, Hn. simpl.
      destruct infield; [|reflexivity].
      specialize (Hop eq_refl). simpl in Hop.
      apply andb_true_iff in Hop as [Hc _]. unfold no_opener in Hc.
      destruct (BRACKETS c); [discriminate | reflexivity]. }
    rewrite Hstep, IH; auto.
    + rewrite <- app_assoc. reflexivity.
    + intros Hi. specialize (Hop Hi). simpl in Hop.
      apply andb_true_iff in Hop as [_ Hop]. exact Hop.
Qed.

(** X11. A word.  A character that begins a word (no space, backslash,
    U+FFFD, quote, opening bracket or symbol character) followed by
    characters that are no space, backslash or U+FFFD is one token, ended
    by the space after it, which is the delimiter, or by the end of the
    input, with delimiter 0: quote and symbol characters inside a word are
    ordinary characters.  With [InfieldBrackets] this needs a word without
    opening bracket. *)
Theorem word_token (infield : bool) (c : rune) (word : gostring) (sp : rune)
    (rest : gostring) :
  word_start c = true ->
  forallb word_char word = true ->
  (infield = true -> forallb no_opener word = true) ->
  IsSpace sp = true ->
  NextToken (mkScanner (c :: word ++ sp :: rest) infield)
    = (c :: word, sp, None, mkScanner rest infield) /\
  NextToken (mkScanner (c :: word) infield)
    = (c :: word, 0, None, mkScanner [] infield).
Proof.
  intros Hc Hw Hop Hsp. unfold NextToken. cbn [rd InfieldBrackets scan].
  rewrite (step_word_start _ _ Hc). split.
  - rewrite scan_word by assumption. cbn [scan app].
    unfold step, step_scan. cbn [buf first escape quote brackets delim].
    rewrite (space_not_escape _ Hsp), Hsp. reflexivity.
  - rewrite <- (app_nil_r word) at 1. rewrite scan_word by assumption.
    reflexivity.
Qed.

Lemma word_token_witness :
  NextToken (mkScanner (runes "it's#1 x") false)
    = (runes "it's#1", 32, None, mkScanner (runes "x") false) /\
  NextToken (mkScanner (runes "it's#1") false)
    = (runes "it's#1", 0, None, mkScanner [] false).
Proof.
  apply (word_token false 105 (runes "t's#1") 32 (runes "x")); reflexivity.
Defined.

(** X12. A bracket inside a word, with [InfieldBrackets].  A word followed
    at once by a bracketed text without backslash is one token, the word
    and the bracketed text together, which ends with the closing bracket
    with delimiter 0, whatever follows. *)
Theorem infield_bracket_token (c : rune) (word region rest : gostring) :
  word_start c = true ->
  forallb word_char word = true ->
  forallb no_opener word = true ->
  bracketed region ->
  ESCAPE_CHAR ∉ region ->
  NextToken (mkScanner (c :: word ++ region ++ rest) true)
    = (c :: word ++ region, 0, None, mkScanner rest true).
Proof.
  intros Hc Hw Hop [o cl body Ho Hb] Hne.
  apply not_elem_of_cons in Hne as [Hoe Hne].
  apply not_elem_of_app in Hne as [Hne Hcl].
  apply not_elem_of_cons in Hcl as [Hcle _].
  destruct (closer_facts _ _ Ho) as (_ & _ & _ & Hoq & _ & Hos & _).
  unfold NextToken. cbn [rd InfieldBrackets scan].
  rewrite (step_word_start _ _ Hc).
  rewrite scan_word by auto. cbn [scan app].
  assert (Hstep : forall b, step true (mkState b false false NO_QUOTE [] 0) o
            = Continue (mkState (b ++ [o]) false false NO_QUOTE [cl] 0)).
  { intros b. unfold step, step_scan.
    cbn [buf first escape quote brackets delim].
    replace (o =? ESCAPE_CHAR) with false by lia. rewrite Hos, Ho.
    replace (o =? NO_QUOTE) with false
      by (apply brackets_spec in Ho; unfold NO_QUOTE; lia).
    reflexivity. }
  rewrite Hstep. rewrite <- (app_assoc body).
  change [cl] with ([] ++ [cl]) at 1.
  rewrite (scan_content true cl body Hb o) by assumption.
  change ([cl] ++ rest) with (cl :: rest). cbn [scan].
  rewrite step_in_brackets by congruence.
  change (NO_QUOTE =? NO_QUOTE) with true. cbv iota.
  rewrite bool_decide_eq_true_2 by reflexivity.
  simpl. rewrite <- !app_assoc. reflexivity.
Qed.

Lemma infield_bracket_token_witness :
  NextToken (mkScanner (runes "x=" ++ json_region_unescaped ++ runes "y z") true)
    = (runes "x=" ++ json_region_unescaped, 0, None, mkScanner (runes "y z") true).
Proof.
  apply (infield_bracket_token 120 (runes "=") json_region_unescaped
           (runes "y z")); try reflexivity.
  - apply (bracketed_intro 123 125
             (dquote :: runes "anb" ++ dquote :: runes ":[1]")); [reflexivity|].
    apply (content_quoted 125 dquote (runes "anb") (runes ":[1]"));
      [reflexivity | |].
    { intros Hin. apply list_elem_of_In in Hin. vm_compute in Hin.
      intuition discriminate. }
    apply (content_char 125 58); [discriminate | reflexivity | reflexivity |].
    apply (content_nested 125 91 93 (runes "1") []); [reflexivity | | constructor].
    apply (content_char 93 49);
      [discriminate | reflexivity | reflexivity | constructor].
  - intros Hin. apply list_elem_of_In in Hin. vm_compute in Hin.
    intuition discriminate.
Defined.

(** X13. A bracket that is never closed.  When the input ends inside a
    bracketed text (its contents well formed and without backslash), all of
    it is returned as the token, with a nil error, and the delimiter is the
    opening bracket. *)
Theorem unterminated_bracket (infield : bool) (o cl : rune) (body : gostring) :
  BRACKETS o = Some cl ->
  content cl body ->
  ESCAPE_CHAR ∉ body ->
  NextToken (mkScanner (o :: body) infield)
    = (o :: body, o, None, mkScanner [] infield).
Proof.
  intros Ho Hb Hne. unfold NextToken. cbn [rd InfieldBrackets scan].
  rewrite (step_open _ _ _ Ho).
  change [cl] with ([] ++ [cl]). rewrite <- (app_nil_r body) at 1.
  rewrite (scan_content infield cl body Hb o) by assumption.
  reflexivity.
Qed.

Lemma unterminated_bracket_witness :
  NextToken (mkScanner (runes "(a b") false)
    = (runes "(a b", 40, None, mkScanner [] false).
Proof.
  apply (unterminated_bracket false 40 41 (runes "a b")); [reflexivity | |].
  - apply (content_char 41 97); [discriminate | reflexivity | reflexivity |].
    apply (content_char 41 32); [discriminate | reflexivity | reflexivity |].
    apply (content_char 41 98);
      [discriminate | reflexivity | reflexivity | constructor].
  - intros Hin. apply list_elem_of_In in Hin. vm_compute in Hin.
    intuition discriminate.
Defined.

(** ** The delimiter *)

Lemma delimiter_intro d :
  d = 0 \/ IsSpace d = true \/ ContainsRune QUOTE_CHARS d = true \/
  d = NO_QUOTE \/ is_Some (BRACKETS d) ->
  delimiter d = true.
Proof.
  unfold delimiter, no_opener. intros H.
  destruct (Z.eqb_spec d 0) as [|H0]; [reflexivity|].
  destruct (IsSpace d); [reflexivity|].
  destruct (ContainsRune QUOTE_CHARS d); [reflexivity|].
  destruct (Z.eqb_spec d NO_QUOTE) as [|Hn]; [reflexivity|].
  destruct (BRACKETS d); [reflexivity|].
  destruct H as [? | [? | [? | [? | [b ?]]]]]; congruence.
Qed.

Lemma step_quote_inv infield st c st' :
  quote_inv st -> step infield st c = Continue st' -> quote_inv st'.
Proof.
  unfold quote_inv, step, step_scan.
  repeat case_match; intros Hq Heq; inversion Heq; subst; simpl; auto.
Qed.

Lemma step_delimiter infield st c :
  scan_inv st -> quote_inv st ->
  match step infield st c with
  | Continue _ => True
  | Return _ d => delimiter d = true
  | ReturnRest _ d => delimiter d = true
  end.
Proof.
  intros [_ _ Hd] Hq.
  assert (Hdl : delimiter (delim st) = true).
  { apply delimiter_intro. destruct Hd as [Hd | [_ Hd]]; auto 6. }
  assert (Hqd : forall x, (x =? quote st) = true -> delimiter x = true).
  { intros x ->%Z.eqb_eq. apply delimiter_intro.
    destruct Hq as [-> | Hq]; auto 6. }
  assert (Hsp : forall x b, IsSpace x && b = true -> delimiter x = true).
  { intros x b [Hx _]%andb_true_iff. apply delimiter_intro. auto. }
  destruct (step infield st c) as [st' | s d | b d] eqn:Hs; [exact I | |];
    revert Hs; unfold step, step_scan; repeat case_match; intros Heq;
    inversion Heq; subst; simpl in *; eauto; discriminate.
Qed.

Lemma scan_delimiter infield l : forall st s d e rest,
  scan_inv st -> quote_inv st ->
  scan infield st l = (s, d, e, rest) -> delimiter d = true.
Proof.
  induction l as [|c l IH]; intros st s d e rest Hi Hq; simpl.
  - intros Heq. assert (d = delim st) as ->
      by (destruct (0 <? _); inversion Heq; reflexivity).
    apply delimiter_intro. destruct (inv_delim _ Hi) as [Hd | [_ Hd]]; auto 6.
  - pose proof (step_delimiter infield st c Hi Hq) as Hd.
    destruct (step infield st c) as [st' | s0 d0 | b d0] eqn:Hs.
    + apply IH; [eapply step_inv | eapply step_quote_inv]; eauto.
    + intros [= <- <- <- <-]. exact Hd.
    + intros [= <- <- <- <-]. exact Hd.
Qed.

(** X14. The delimiter that [NextToken] returns is 0, a space, a quote
    character, an opening bracket, or U+FFFD. *)
Theorem NextToken_delimiter (sc : Scanner) :
  delimiter (NextToken sc).1.1.2 = true.
Proof.
  unfold NextToken.
  destruct (scan (InfieldBrackets sc) init_state (rd sc))
    as [[[s d] e] rest] eqn:Hs. simpl.
  eapply scan_delimiter; [apply init_inv | left; reflexivity | exact Hs].
Qed.

(** ** Options and arguments of [ParseArgs] *)

Lemma ParseArgs_loop_eq line :
  ParseArgs line = ParseArgs_loop ∅ (GetArgs line false).
Proof. unfold ParseArgs. destruct (GetArgs line false); reflexivity. Qed.

Lemma HasPrefix_nil s : HasPrefix s [] = true.
Proof. destruct s; reflexivity. Qed.

Lemma HasPrefix_single c s x : HasPrefix (c :: s) [x] = (c =? x).
Proof. simpl. rewrite HasPrefix_nil. apply andb_true_r. Qed.

Lemma TrimLeft_no_dash (s : gostring) : HasPrefix (TrimLeft s [45]) [45] = false.
Proof.
  induction s as [|c s IH]; [reflexivity|].
  cbn [TrimLeft]. rewrite ContainsRune_cons. cbn [ContainsRune existsb].
  rewrite orb_false_r. destruct (c =? 45) eqn:Hc; [exact IH|].
  rewrite HasPrefix_single. exact Hc.
Qed.

Lemma TrimLeft_dashes (dashes s : gostring) :
  forallb (Z.eqb 45) dashes = true -> HasPrefix s [45] = false ->
  TrimLeft (dashes ++ s) [45] = s.
Proof.
  intros Hd Hs. induction dashes as [|c dashes IH]; simpl.
  - destruct s as [|x s]; [reflexivity|]. rewrite HasPrefix_single in Hs.
    cbn [TrimLeft]. rewrite ContainsRune_cons. cbn [ContainsRune existsb].
    rewrite orb_false_r, Hs. reflexivity.
  - cbn [forallb] in Hd. apply andb_true_iff in Hd as [Hc Hd].
    apply Z.eqb_eq in Hc as <-. simpl. auto.
Qed.

Lemma Contains_eq (s : gostring) : Contains s [61] = ContainsRune s 61.
Proof.
  induction s as [|c s IH]; [reflexivity|].
  cbn [Contains]. rewrite HasPrefix_single, IH, ContainsRune_cons, Z.eqb_sym.
  reflexivity.
Qed.

Lemma SplitN2_eq (key value : gostring) :
  ContainsRune key 61 = false ->
  SplitN2 (key ++ 61 :: value) [61] = (key, value).
Proof.
  induction key as [|c key IH]; intros Hk.
  - cbn [app SplitN2]. rewrite HasPrefix_single. reflexivity.
  - rewrite ContainsRune_cons in Hk. apply orb_false_iff in Hk as [Hc Hk].
    cbn [app SplitN2]. rewrite HasPrefix_single. rewrite Z.eqb_sym in Hc.
    rewrite Hc, (IH Hk). reflexivity.
Qed.

Lemma SplitN2_key (s : gostring) :
  ContainsRune (SplitN2 s [61]).1 61 = false /\
  (HasPrefix s [45] = false -> HasPrefix (SplitN2 s [61]).1 [45] = false).
Proof.
  induction s as [|c s [IH1 IH2]]; [split; reflexivity|].
  cbn [SplitN2]. rewrite !HasPrefix_single.
  destruct (c =? 61) eqn:Hc; [split; reflexivity|].
  destruct (SplitN2 s [61]) as [a b]. cbn [fst] in *.
  rewrite ContainsRune_cons, HasPrefix_single, Z.eqb_sym, Hc, IH1. auto.
Qed.

(** X15. The arguments that [ParseArgs] returns are the last tokens of the
    line, in their order, and every token before them begins with a dash:
    tokens are neither reordered nor dropped, except the leading option
    tokens. *)
Theorem ParseArgs_arguments (line : gostring) :
  exists options,
    GetArgs line false = options ++ Arguments (ParseArgs line) /\
    Forall (fun arg => HasPrefix arg [45] = true) options.
Proof.
  rewrite ParseArgs_loop_eq. generalize (GetArgs line false) as args.
  generalize (∅ : gmap gostring gostring) as opts.
  intros opts args. revert opts.
  induction args as [|arg args IH]; intros opts.
  - exists []. split; [reflexivity | constructor].
  - simpl. destruct (HasPrefix arg [45]) eqn:Hp; simpl.
    + case_bool_decide.
      * exists [arg]. split; [reflexivity | repeat constructor; exact Hp].
      * assert (Hn : forall o, exists options,
                  arg :: args = options ++ Arguments (ParseArgs_loop o args) /\
                  Forall (fun arg => HasPrefix arg [45] = true) options).
        { intros o. destruct (IH o) as (options & Ha & Hf).
          exists (arg :: options). split; [simpl; congruence|].
          constructor; assumption. }
        destruct (Contains (TrimLeft arg [45]) [61]); [|apply Hn].
        destruct (SplitN2 (TrimLeft arg [45]) [61]). apply Hn.
    + exists []. split; [reflexivity | constructor].
Qed.

Lemma ParseArgs_loop_keys (P : gostring -> Prop) args :
  forall opts,
    P [] ->
    (forall s, HasPrefix s [45] = false -> ContainsRune s 61 = false -> P s) ->
    (forall k, is_Some (opts !! k) -> P k) ->
    forall k, is_Some (Options (ParseArgs_loop opts args) !! k) ->
              P k \/
              (HasPrefix k [45] = false /\ ContainsRune k 61 = false).
Proof.
  induction args as [|arg args IH]; intros opts Hnil HP Hopts k; simpl.
  - auto.
  - destruct (HasPrefix arg [45]); simpl; [|auto].
    case_bool_decide; simpl; [auto|].
    pose proof (TrimLeft_no_dash arg) as Hnd.
    destruct (Contains (TrimLeft arg [45]) [61]) eqn:Hc.
    + pose proof (SplitN2_key (TrimLeft arg [45])) as [Hk1 Hk2].
      destruct (SplitN2 (TrimLeft arg [45]) [61]) as [key value]. simpl in *.
      apply IH; auto. intros k'. rewrite lookup_insert_is_Some.
      intros [<- | [_ Hk']]; auto.
    + rewrite Contains_eq in Hc.
      apply IH; auto. intros k'. rewrite lookup_insert_is_Some.
      intros [<- | [_ Hk']]; auto.
Qed.

(** X16. No option name that [ParseArgs] returns begins with a dash or
    holds an equals sign. *)
Theorem ParseArgs_option_names (line : gostring) (name : gostring) :
  is_Some (Options (ParseArgs line) !! name) ->
  HasPrefix name [45] = false /\ ContainsRune name 61 = false.
Proof.
  rewrite ParseArgs_loop_eq. intros Hk.
  destruct (ParseArgs_loop_keys
              (fun k => HasPrefix k [45] = false /\ ContainsRune k 61 = false)
              (GetArgs line false) ∅) with (k := name) as [H | H]; auto.
  intros k [v Hv]. rewrite lookup_empty in Hv. discriminate.
Qed.

Lemma ParseArgs_option_names_witness :
  HasPrefix (runes "number") [45] = false /\
  ContainsRune (runes "number") 61 = false.
Proof.
  apply (ParseArgs_option_names PARSE_LINE (runes "number")).
  exists (runes "42"). vm_compute. reflexivity.
Defined.

Lemma HasPrefix_dashes (dashes s : gostring) :
  dashes <> [] -> forallb (Z.eqb 45) dashes = true ->
  HasPrefix (dashes ++ s) [45] = true.
Proof.
  destruct dashes as [|c dashes]; [congruence|]. intros _ Hd.
  cbn [forallb] in Hd. apply andb_true_iff in Hd as [Hc _].
  apply Z.eqb_eq in Hc as <-. cbn [app]. apply HasPrefix_single.
Qed.

(** X17. An option with a value.  A token made of one or more dashes, a
    name that neither begins with a dash nor holds an equals sign, an equals
    sign and a value sets the option of that name to that value (the value
    may hold equals signs; the name may be empty), and the loop goes on with
    the next token. *)
Theorem ParseArgs_loop_value (options : gmap gostring gostring)
    (dashes name value : gostring) (args : list gostring) :
  dashes <> [] ->
  forallb (Z.eqb 45) dashes = true ->
  HasPrefix name [45] = false ->
  ContainsRune name 61 = false ->
  ParseArgs_loop options ((dashes ++ name ++ 61 :: value) :: args)
    = ParseArgs_loop (<[name := value]> options) args.
Proof.
  intros Hne Hd Hp Hc. cbn [ParseArgs_loop].
  rewrite (HasPrefix_dashes _ _ Hne Hd). cbn [negb].
  rewrite bool_decide_eq_false_2.
  - assert (Hp' : HasPrefix (name ++ 61 :: value) [45] = false).
    { destruct name as [|c name]; [reflexivity|].
      rewrite HasPrefix_single in Hp. cbn [app]. rewrite HasPrefix_single.
      exact Hp. }
    rewrite (TrimLeft_dashes _ _ Hd Hp'), Contains_eq.
    assert (Hin : ContainsRune (name ++ 61 :: value) 61 = true).
    { unfold ContainsRune. rewrite existsb_app. simpl. apply orb_true_r. }
    rewrite Hin, (SplitN2_eq _ _ Hc). reflexivity.
  - intros Heq.
    assert (Hin : ContainsRune (dashes ++ name ++ 61 :: value) 61 = true).
    { unfold ContainsRune. rewrite !existsb_app. simpl.
      rewrite !orb_true_r. reflexivity. }
    rewrite Heq in Hin. discriminate Hin.
Qed.

Lemma ParseArgs_loop_value_witness :
  ParseArgs_loop ∅ [runes "--where=a=b"; runes "x"]
    = ParseArgs_loop (<[runes "where" := runes "a=b"]> ∅) [runes "x"].
Proof.
  apply (ParseArgs_loop_value ∅ (runes "--") (runes "where") (runes "a=b")
           [runes "x"]); [discriminate | reflexivity..].
Defined.

(** X18. An option without a value.  A token made of one or more dashes and
    a name that neither begins with a dash nor holds an equals sign, other
    than the token of exactly two dashes, sets the option of that name to
    the empty string.  The name may be empty: a single dash, or three dashes
    or more, set the option with the empty name. *)
Theorem ParseArgs_loop_flag (options : gmap gostring gostring)
    (dashes name : gostring) (args : list gostring) :
  dashes <> [] ->
  forallb (Z.eqb 45) dashes = true ->
  HasPrefix name [45] = false ->
  ContainsRune name 61 = false ->
  dashes ++ name <> [45; 45] ->
  ParseArgs_loop options ((dashes ++ name) :: args)
    = ParseArgs_loop (<[name := []]> options) args.
Proof.
  intros Hne Hd Hp Hc Hdd. cbn [ParseArgs_loop].
  rewrite (HasPrefix_dashes _ _ Hne Hd). cbn [negb].
  rewrite bool_decide_eq_false_2 by exact Hdd.
  rewrite (TrimLeft_dashes _ _ Hd Hp), Contains_eq, Hc. reflexivity.
Qed.

Lemma ParseArgs_loop_flag_witness :
  ParseArgs_loop ∅ [runes "-"; runes "x"]
    = ParseArgs_loop (<[[] := []]> ∅) [runes "x"].
Proof.
  apply (ParseArgs_loop_flag ∅ (runes "-") [] [runes "x"]);
    [discriminate | reflexivity | reflexivity | reflexivity | discriminate].
Defined.

(** ** Termination *)

(** X21. Reading tokens ends.  A [NextToken] call that returns no error
    leaves strictly less to read than there was, and one that returns an
    error leaves nothing; so a loop that calls it until an error stops, and
    [getTokens] returns for every scanner and bound, with at most as many
    tokens as the line has characters when there is no bound. *)
Theorem tokens_terminate (sc : Scanner) (max : Z) :
  match NextToken sc with
  | (_, _, None, sc') => (length (rd sc') < length (rd sc))%nat
  | (_, _, Some _, sc') => rd sc' = []
  end /\
  is_Some (getTokens sc max) /\
  (length (GetArgs (rd sc) (InfieldBrackets sc)) <= length (rd sc))%nat.
Proof.
  split; [|split].
  - pose proof (NextToken_result sc) as H.
    destruct (NextToken sc) as [[[s d] [e|]] sc'].
    + destruct H as (_ & _ & ->). reflexivity.
    + destruct H as (_ & H & _). exact H.
  - destruct (getTokens_loop_total (S (length (rd sc))) max 0 [] sc) as [r Hr];
      [lia|]. exists r. exact Hr.
  - generalize (InfieldBrackets sc) as infield. generalize (rd sc) as line.
    clear. intros line infield.
    remember (length line) as n eqn:Hn. revert line Hn.
    induction (lt_wf n) as [n _ IH]. intros line ->.
    rewrite GetArgs_unfold.
    pose proof (scan_result infield line _ init_inv) as Hr.
    destruct (scan infield init_state line) as [[[s d] [e|]] rest] eqn:Hs;
      [simpl; lia|].
    destruct Hr as (_ & _ & Hlt).
    destruct line as [|c line]; [discriminate Hs|].
    specialize (Hlt ltac:(discriminate)).
    specialize (IH (length rest) Hlt rest eq_refl). simpl in *. lia.
Qed.

(** ** Where the stream ends *)

(** The first character of a token that is no space, no backslash and no
    quote goes to the buffer, unless the call returns at once. *)
Lemma step_first_char infield c :
  IsSpace c = false -> c <> ESCAPE_CHAR -> ContainsRune QUOTE_CHARS c = false ->
  match step infield init_state c with
  | Continue st' => buf st' = [c]
  | Return _ _ => True
  | ReturnRest _ _ => True
  end.
Proof.
  intros Hs He Hq.
  destruct (step infield init_state c) as [st' | s d | b d] eqn:Hst; auto.
  revert Hst. unfold step, step_scan.
  cbn [buf first escape quote brackets delim init_state].
  replace (c =? ESCAPE_CHAR) with false by lia. rewrite Hs, Hq.
  cbn [andb negb app].
  repeat case_match; intros Heq; inversion Heq; reflexivity.
Qed.

Lemma scan_buffered infield l st s d e rest :
  buf st <> [] -> scan infield st l = (s, d, e, rest) -> e = None.
Proof.
  intros Hb Hs. destruct (buf st) as [|x b] eqn:Hbuf; [congruence|].
  eapply (scan_keeps_head infield l st x); [rewrite Hbuf; reflexivity | exact Hs].
Qed.

(** [NextToken] signals the end of the stream on the dangling lines, and on
    no other. *)
Lemma scan_dangling infield l :
  match scan infield init_state l with
  | (_, _, Some _, _) => dangling l = true
  | (_, _, None, _) => dangling l = false
  end.
Proof.
  assert (Hnone : forall st k, buf st <> [] ->
            match scan infield st k with
            | (_, _, Some _, _) => False
            | (_, _, None, _) => True
            end).
  { intros st k Hb. destruct (scan infield st k) as [[[s d] e] rest] eqn:Hs.
    apply scan_buffered in Hs as ->; auto. }
  induction l as [|c l IH]; [reflexivity|].
  cbn [dangling]. destruct (IsSpace c) eqn:Hsp.
  { cbn [scan]. unfold step. rewrite (space_not_escape _ Hsp).
    cbn [init_state escape first andb]. rewrite Hsp. exact IH. }
  clear IH. destruct (Z.eqb_spec c ESCAPE_CHAR) as [->|He].
  { (* a backslash *)
    replace (scan infield init_state (ESCAPE_CHAR :: l))
      with (scan infield (mkState [] false true NO_QUOTE [] 0) l)
      by (destruct infield; reflexivity).
    destruct l as [|d l]; [reflexivity|].
    replace (dangling_tail (ESCAPE_CHAR :: d :: l)) with false
      by (destruct l; reflexivity).
    replace (scan infield (mkState [] false true NO_QUOTE [] 0) (d :: l))
      with (scan infield (mkState [d] false false NO_QUOTE [] 0) l).
    - specialize (Hnone (mkState [d] false false NO_QUOTE [] 0) l).
      destruct (scan _ _ l) as [[[s dl] [e|]] rest];
        [exfalso; apply Hnone; discriminate | reflexivity].
    - cbn [scan]. unfold step. cbn [escape andb negb].
      rewrite andb_false_r. reflexivity. }
  destruct (ContainsRune QUOTE_CHARS c) eqn:Hq.
  { (* a quote *)
    assert (Hqn : (c =? NO_QUOTE) = false)
      by (apply quote_chars_spec in Hq; unfold NO_QUOTE; lia).
    cbn [scan]. rewrite (step_open_quote _ _ Hq).
    destruct l as [|d l].
    { cbn [scan dangling_tail buf]. rewrite Hq, orb_true_r. reflexivity. }
    destruct (Z.eqb_spec d ESCAPE_CHAR) as [->|Hde].
    - replace (scan infield (mkState [] false false c [] 0) (ESCAPE_CHAR :: l))
        with (scan infield (mkState [] false true c [] 0) l) by reflexivity.
      destruct l as [|x l].
      { cbn [scan dangling_tail buf]. rewrite Hq. reflexivity. }
      cbn [dangling_tail].
      replace (scan infield (mkState [] false true c [] 0) (x :: l))
        with (scan infield (mkState [x] false false c [] 0) l).
      + specialize (Hnone (mkState [x] false false c [] 0) l).
        destruct (scan _ _ l) as [[[s dl] [e|]] rest];
          [exfalso; apply Hnone; discriminate | reflexivity].
      + cbn [scan]. unfold step. cbn [escape andb negb].
        rewrite andb_false_r. reflexivity.
    - assert (Hdt : dangling_tail (c :: d :: l) = false).
      { destruct l; [|reflexivity]. cbn [dangling_tail].
        replace (d =? ESCAPE_CHAR) with false by lia. apply andb_false_r. }
      rewrite Hdt. cbn [scan].
      pose proof (step_buf infield (mkState [] false false c [] 0) d) as Hb.
      destruct (step infield (mkState [] false false c [] 0) d)
        as [st' | s0 d0 | b d0] eqn:Hst; [|reflexivity..].
      assert (Hst' : buf st' = [d]).
      { revert Hst. unfold step, step_scan.
        cbn [buf first escape quote brackets delim].
        replace (d =? ESCAPE_CHAR) with false by lia. rewrite Hqn.
        cbn [andb negb]. rewrite andb_false_r.
        repeat case_match; intros Heq; inversion Heq; reflexivity. }
      specialize (Hnone st' l). rewrite Hst' in Hnone.
      destruct (scan infield st' l) as [[[s dl] [e|]] rest];
        [exfalso; apply Hnone; discriminate | reflexivity]. }
  (* another character *)
  assert (Hdt : dangling_tail (c :: l) = false).
  { destruct l as [|d [|x l]]; cbn [dangling_tail]; rewrite ?Hq; auto.
    replace (c =? ESCAPE_CHAR) with false by lia. reflexivity. }
  rewrite Hdt. cbn [scan].
  pose proof (step_first_char infield c Hsp He Hq) as Hb.
  destruct (step infield init_state c) as [st' | s0 d0 | b d0]; [|reflexivity..].
  specialize (Hnone st' l). rewrite Hb in Hnone.
  destruct (scan infield st' l) as [[[s dl] [e|]] rest];
    [exfalso; apply Hnone; discriminate | reflexivity].
Qed.

(** X22. The end of the stream.  Every scanner is drained by finitely many
    successful [NextToken] calls, after which the next call returns the
    empty token with delimiter 0 and the end-of-stream error, and leaves the
    scanner empty; [getTokens] without a bound returns these tokens.  A call
    returns that error exactly when what is left to read is white space
    followed by nothing, by a lone backslash, by a lone quote character, or
    by a quote character and a lone backslash; every other call returns a
    nil error with a token that is not empty or a delimiter that is not 0. *)
Theorem end_of_stream (sc : Scanner) :
  (exists toks sc',
     drains sc toks sc' /\
     NextToken sc' = ([], 0, Some EOF, mkScanner [] (InfieldBrackets sc)) /\
     NextToken (mkScanner [] (InfieldBrackets sc))
       = ([], 0, Some EOF, mkScanner [] (InfieldBrackets sc)) /\
     getTokens sc 0
       = Some (toks, [], Some EOF, mkScanner [] (InfieldBrackets sc))) /\
  match NextToken sc with
  | (s, d, Some _, sc') =>
      dangling (rd sc) = true /\ s = [] /\ d = 0 /\
      sc' = mkScanner [] (InfieldBrackets sc)
  | (s, d, None, sc') =>
      dangling (rd sc) = false /\ (s <> [] \/ d <> 0) /\
      (length (rd sc') < length (rd sc))%nat
  end.
Proof.
  split.
  - destruct (getTokens_loop_all (S (length (rd sc))) 0 [] sc)
      as (toks & sc' & Hd & He & Hg & _); [lia|].
    exists toks, sc'. repeat split; auto.
  - pose proof (NextToken_result sc) as Hr.
    pose proof (scan_dangling (InfieldBrackets sc) (rd sc)) as Hd.
    unfold NextToken in *.
    destruct (scan (InfieldBrackets sc) init_state (rd sc))
      as [[[s d] [e|]] rest].
    + destruct Hr as (-> & -> & ->). auto.
    + destruct Hr as (Hne & Hlt & _). auto.
Qed.
